(** * Cloudflare DDNS worker: the request handler of [src/index.ts]

    A shallow embedding of the worker's [fetch] handler and of its helper
    [timingSafeEqual], together with the platform functions they call
    (JavaScript string methods, [TextEncoder], [Buffer]), and the properties
    of the request pipeline proved over it.

    JavaScript strings are sequences of UTF-16 code units, byte arrays are
    sequences of octets; both are lists of [Z] here, with the ranges written
    out as predicates. *)

From Stdlib Require Import String Ascii.
From Stdlib Require Import ZArith List Bool Lia.
Import ListNotations.
Local Open Scope string_scope.
Local Open Scope list_scope.
Local Open Scope Z_scope.

(** ** JavaScript strings *)

Module JS.

Definition jsstring := list Z.

(** The code units of an ASCII literal. *)
Definition lit (s : string) : jsstring :=
  map (fun a => Z.of_N (N_of_ascii a)) (list_ascii_of_string s).

Fixpoint eqb (a b : jsstring) : bool :=
  match a, b with
  | [], [] => true
  | x :: a', y :: b' => (x =? y) && eqb a' b'
  | _, _ => false
  end.

(** [!s] is false for the empty string only. *)
Definition truthy (s : jsstring) : bool :=
  match s with [] => false | _ => true end.

Fixpoint startsWith (s search : jsstring) {struct search} : bool :=
  match search, s with
  | [], _ => true
  | y :: search', x :: s' => (x =? y) && startsWith s' search'
  | _ :: _, [] => false
  end.

(** [s.endsWith(search)]: the last [search.length] code units of [s] are
    those of [search]. *)
Definition endsWith (s search : jsstring) : bool :=
  let n := length s in
  let m := length search in
  (m <=? n)%nat && eqb (skipn (n - m) s) search.

(** [s.indexOf(search)] from position 0: the first position at which
    [search] occurs, [-1] when there is none. *)
Fixpoint indexOf_from (i : Z) (s search : jsstring) : Z :=
  if startsWith s search then i
  else match s with
       | [] => -1
       | _ :: s' => indexOf_from (i + 1) s' search
       end.

Definition indexOf (s search : jsstring) : Z := indexOf_from 0 s search.

(** [s.substring(start, end)]: both indices are clamped to [0, s.length]
    and swapped when [start > end]. *)
Definition clamp (s : jsstring) (i : Z) : nat :=
  Z.to_nat (Z.min (Z.max i 0) (Z.of_nat (length s))).

Definition substring (s : jsstring) (i j : Z) : jsstring :=
  let a := clamp s i in
  let b := clamp s j in
  let lo := Nat.min a b in
  let hi := Nat.max a b in
  firstn (hi - lo) (skipn lo s).

(** [s.substring(start)]: to the end of the string. *)
Definition substring_from (s : jsstring) (i : Z) : jsstring :=
  substring s i (Z.of_nat (length s)).

(** [s.split(sep)] for a string separator.  [skip] counts the code units of
    a separator occurrence still to be passed over, [cur] holds the piece
    being read, last code unit first. *)
Fixpoint split_go (sep : jsstring) (skip : nat) (cur s : jsstring)
  : list jsstring :=
  match s with
  | [] => [rev cur]
  | c :: s' =>
      match skip with
      | S k => split_go sep k cur s'
      | O =>
          if startsWith s sep
          then rev cur :: split_go sep (length sep - 1) [] s'
          else split_go sep O (c :: cur) s'
      end
  end.

Definition split (s sep : jsstring) : list jsstring :=
  match sep with
  | [] => map (fun c => [c]) s
  | _ => split_go sep O [] s
  end.

End JS.

Import JS.

(** ** Encodings: [TextEncoder], [Buffer] *)

Module Encoding.

Definition byte (b : Z) : Prop := 0 <= b < 256.

Definition is_high (c : Z) : bool := (0xD800 <=? c) && (c <=? 0xDBFF).
Definition is_low (c : Z) : bool := (0xDC00 <=? c) && (c <=? 0xDFFF).

(** [s.isWellFormed()]: every surrogate code unit is part of a pair. *)
Fixpoint isWellFormed (s : jsstring) : bool :=
  match s with
  | [] => true
  | c :: s' =>
      if is_high c then
        match s' with
        | d :: s'' => is_low d && isWellFormed s''
        | [] => false
        end
      else negb (is_low c) && (0 <=? c) && (c <? 65536) && isWellFormed s'
  end.

(** The scalar values of a string, as [TextEncoder] reads it: a surrogate
    pair is one code point, a lone surrogate is read as U+FFFD. *)
Fixpoint scalars (s : jsstring) : list Z :=
  match s with
  | [] => []
  | c :: s' =>
      if is_high c then
        match s' with
        | d :: s'' =>
            if is_low d
            then (0x10000 + Z.shiftl (c - 0xD800) 10 + (d - 0xDC00)) :: scalars s''
            else 0xFFFD :: scalars s'
        | [] => [0xFFFD]
        end
      else if is_low c then 0xFFFD :: scalars s'
      else c :: scalars s'
  end.

(** The UTF-8 bytes of one scalar value. *)
Definition utf8_bytes (cp : Z) : list Z :=
  if cp <? 0x80 then [cp]
  else if cp <? 0x800 then
    [Z.lor 0xC0 (Z.shiftr cp 6);
     Z.lor 0x80 (Z.land cp 0x3F)]
  else if cp <? 0x10000 then
    [Z.lor 0xE0 (Z.shiftr cp 12);
     Z.lor 0x80 (Z.land (Z.shiftr cp 6) 0x3F);
     Z.lor 0x80 (Z.land cp 0x3F)]
  else
    [Z.lor 0xF0 (Z.shiftr cp 18);
     Z.lor 0x80 (Z.land (Z.shiftr cp 12) 0x3F);
     Z.lor 0x80 (Z.land (Z.shiftr cp 6) 0x3F);
     Z.lor 0x80 (Z.land cp 0x3F)].

(** [new TextEncoder().encode(s)] *)
Definition TextEncoder_encode (s : jsstring) : list Z :=
  flat_map utf8_bytes (scalars s).

(** The UTF-8 decoder behind [buf.toString()], a state machine over the
    bytes: the code point being read, the continuation bytes seen and
    needed, and the range allowed for the next byte.  An ill-formed
    sequence is read as U+FFFD and the offending byte is read again as the
    start of a sequence. *)
Record decoder := {
  code_point : Z;
  bytes_seen : Z;
  bytes_needed : Z;
  lower_boundary : Z;
  upper_boundary : Z
}.

Definition decoder_init : decoder :=
  {| code_point := 0; bytes_seen := 0; bytes_needed := 0;
     lower_boundary := 0x80; upper_boundary := 0xBF |}.

Definition decoder_lead (b : Z) : decoder * list Z :=
  if (0 <=? b) && (b <=? 0x7F) then (decoder_init, [b])
  else if (0xC2 <=? b) && (b <=? 0xDF) then
    ({| code_point := Z.land b 0x1F; bytes_seen := 0; bytes_needed := 1;
        lower_boundary := 0x80; upper_boundary := 0xBF |}, [])
  else if (0xE0 <=? b) && (b <=? 0xEF) then
    ({| code_point := Z.land b 0xF; bytes_seen := 0; bytes_needed := 2;
        lower_boundary := if b =? 0xE0 then 0xA0 else 0x80;
        upper_boundary := if b =? 0xED then 0x9F else 0xBF |}, [])
  else if (0xF0 <=? b) && (b <=? 0xF4) then
    ({| code_point := Z.land b 0x7; bytes_seen := 0; bytes_needed := 3;
        lower_boundary := if b =? 0xF0 then 0x90 else 0x80;
        upper_boundary := if b =? 0xF4 then 0x8F else 0xBF |}, [])
  else (decoder_init, [0xFFFD]).

Definition decoder_step (st : decoder) (b : Z) : decoder * list Z :=
  if bytes_needed st =? 0 then decoder_lead b
  else if (b <? lower_boundary st) || (upper_boundary st <? b) then
    let (st', out) := decoder_lead b in (st', 0xFFFD :: out)
  else
    let cp := Z.lor (Z.shiftl (code_point st) 6) (Z.land b 0x3F) in
    if bytes_seen st + 1 =? bytes_needed st then (decoder_init, [cp])
    else ({| code_point := cp; bytes_seen := bytes_seen st + 1;
             bytes_needed := bytes_needed st;
             lower_boundary := 0x80; upper_boundary := 0xBF |}, []).

Fixpoint decoder_run (st : decoder) (bytes : list Z) : list Z :=
  match bytes with
  | [] => if bytes_needed st =? 0 then [] else [0xFFFD]
  | b :: bytes' =>
      let (st', out) := decoder_step st b in
      out ++ decoder_run st' bytes'
  end.

(** The UTF-16 code units of one code point. *)
Definition utf16_units (cp : Z) : list Z :=
  if cp <? 0x10000 then [cp]
  else [0xD800 + Z.shiftr (cp - 0x10000) 10;
        0xDC00 + Z.land (cp - 0x10000) 0x3FF].

(** [buf.toString()], that is [buf.toString("utf8")] *)
Definition Buffer_toString (bytes : list Z) : jsstring :=
  flat_map utf16_units (decoder_run decoder_init bytes).

(** Base64.  The value of a character in the alphabet; as Node does, the
    URL-safe characters are accepted too. *)
Definition unbase64 (c : Z) : option Z :=
  if (65 <=? c) && (c <=? 90) then Some (c - 65)
  else if (97 <=? c) && (c <=? 122) then Some (c - 97 + 26)
  else if (48 <=? c) && (c <=? 57) then Some (c - 48 + 52)
  else if (c =? 43) || (c =? 45) then Some 62
  else if (c =? 47) || (c =? 95) then Some 63
  else None.

Definition base64_char (v : Z) : Z :=
  if v <? 26 then v + 65
  else if v <? 52 then v - 26 + 97
  else if v <? 62 then v - 52 + 48
  else if v =? 62 then 43
  else 47.

(** The sextets of a base64 text: characters outside the alphabet are
    passed over, and the text ends at the first padding character. *)
Fixpoint sextets (s : jsstring) : list Z :=
  match s with
  | [] => []
  | c :: s' =>
      if c =? 61 then []
      else match unbase64 c with
           | Some v => v :: sextets s'
           | None => sextets s'
           end
  end.

Fixpoint pack_sextets (l : list Z) : list Z :=
  match l with
  | a :: b :: c :: d :: l' =>
      Z.lor (Z.shiftl a 2) (Z.shiftr b 4)
      :: Z.lor (Z.shiftl (Z.land b 0xF) 4) (Z.shiftr c 2)
      :: Z.lor (Z.shiftl (Z.land c 0x3) 6) d
      :: pack_sextets l'
  | [a; b; c] =>
      [Z.lor (Z.shiftl a 2) (Z.shiftr b 4);
       Z.lor (Z.shiftl (Z.land b 0xF) 4) (Z.shiftr c 2)]
  | [a; b] => [Z.lor (Z.shiftl a 2) (Z.shiftr b 4)]
  | _ => []
  end.

(** [Buffer.from(s, "base64")] *)
Definition Buffer_from_base64 (s : jsstring) : list Z :=
  pack_sextets (sextets s).

(** [buf.toString("base64")]: the padded encoding of RFC 4648, which a
    client uses to build the header token. *)
Fixpoint Buffer_toString_base64 (bytes : list Z) : jsstring :=
  match bytes with
  | a :: b :: c :: bytes' =>
      base64_char (Z.shiftr a 2)
      :: base64_char (Z.lor (Z.shiftl (Z.land a 0x3) 4) (Z.shiftr b 4))
      :: base64_char (Z.lor (Z.shiftl (Z.land b 0xF) 2) (Z.shiftr c 6))
      :: base64_char (Z.land c 0x3F)
      :: Buffer_toString_base64 bytes'
  | [a; b] =>
      [base64_char (Z.shiftr a 2);
       base64_char (Z.lor (Z.shiftl (Z.land a 0x3) 4) (Z.shiftr b 4));
       base64_char (Z.shiftl (Z.land b 0xF) 2);
       61]
  | [a] =>
      [base64_char (Z.shiftr a 2);
       base64_char (Z.shiftl (Z.land a 0x3) 4);
       61; 61]
  | [] => []
  end.

End Encoding.

Import Encoding.

(** ** Effects: provider calls, exceptions, the console *)

(** A thrown JavaScript value, known by its message. *)
Inductive exn := Error (message : string).

Inductive outcome (A : Type) :=
| Returned (a : A)
| Thrown (e : exn).
Arguments Returned {A} a.
Arguments Thrown {A} e.

Record Zone := { zone_id : jsstring; zone_name : jsstring }.

(** A record as the provider lists it; [id] is optional in the SDK's type. *)
Record DnsRecord := {
  record_id : option jsstring;
  record_name : jsstring;
  record_type : jsstring;
  record_content : jsstring
}.

Inductive RecordType := A | AAAA.

(** [baseRecord] with its [type]: the body of a create or update call. *)
Record NewRecord := {
  content : jsstring;
  name : jsstring;
  ttl : Z;
  proxied : bool;
  type : RecordType
}.

Inductive Call :=
| ZonesList
| RecordsList (zone : jsstring)
| RecordsCreate (zone : jsstring) (body : NewRecord)
| RecordsUpdate (id : jsstring) (zone : jsstring) (body : NewRecord).

(** What the provider answers to each call of one request. *)
Record Cloudflare := {
  zones_list : outcome (list Zone);
  dns_records_list : jsstring -> outcome (list DnsRecord);
  dns_records_create : jsstring -> NewRecord -> outcome unit;
  dns_records_update : jsstring -> jsstring -> NewRecord -> outcome unit
}.

(** The observable effects of a request: the provider calls issued, oldest
    first, and the values logged with [console.error]. *)
Record World := { calls : list Call; console : list exn }.

Definition World_empty : World := {| calls := []; console := [] |}.

Definition M (A : Type) := World -> outcome A * World.

Definition ret {A} (a : A) : M A := fun w => (Returned a, w).

Definition throw {A} (e : exn) : M A := fun w => (Thrown e, w).

Definition bind {A B} (m : M A) (k : A -> M B) : M B :=
  fun w =>
    match m w with
    | (Returned a, w') => k a w'
    | (Thrown e, w') => (Thrown e, w')
    end.

Notation "x <- m ;; k" := (bind m (fun x => k))
  (at level 61, m at next level, right associativity).
Notation "m ;;; k" := (bind m (fun _ => k))
  (at level 61, right associativity).

(** [try { body } catch (error) { handler }] *)
Definition try_catch {A} (body : M A) (handler : exn -> M A) : M A :=
  fun w =>
    match body w with
    | (Returned a, w') => (Returned a, w')
    | (Thrown e, w') => handler e w'
    end.

Definition logged (c : Call) (w : World) : World :=
  {| calls := calls w ++ [c]; console := console w |}.

Definition call {A} (c : Call) (answer : outcome A) : M A :=
  fun w => (answer, logged c w).

Definition console_error (e : exn) : M unit :=
  fun w => (Returned tt, {| calls := calls w; console := console w ++ [e] |}).

(** ** The [ip-address] library

    [Address4] and [Address6] are taken as they come: validity of a literal
    and the [correctForm()] of the address built from it. *)
Class IpAddress := {
  Address4_isValid : jsstring -> bool;
  Address4_correctForm : jsstring -> jsstring;
  Address6_isValid : jsstring -> bool;
  Address6_correctForm : jsstring -> jsstring
}.

Inductive Address :=
| Address4 (literal : jsstring)
| Address6 (literal : jsstring).

Definition correctForm `{IpAddress} (a : Address) : jsstring :=
  match a with
  | Address4 s => Address4_correctForm s
  | Address6 s => Address6_correctForm s
  end.

(** ** The worker *)

(** Modelled from the spec: [crypto.subtle.timingSafeEqual] of the Workers
    runtime is not part of the repository.  It compares two byte sequences
    of equal length by an accumulated bitwise OR of the per-byte
    differences, and throws when the lengths differ. *)
Definition crypto_subtle_timingSafeEqual (a b : list Z) : outcome bool :=
  if (length a =? length b)%nat
  then Returned
         (fold_left (fun acc xy => Z.lor acc (Z.lxor (fst xy) (snd xy)))
                    (combine a b) 0 =? 0)
  else Thrown (Error "Input buffers must have the same byte length").

(** [timingSafeEqual], lines 21-32 *)
Definition timingSafeEqual (a b : jsstring) : outcome bool :=
  let aBytes := TextEncoder_encode a in
  let bBytes := TextEncoder_encode b in
  if negb (length aBytes =? length bBytes)%nat then Returned false
  else crypto_subtle_timingSafeEqual aBytes bBytes.

Definition lift {A} (o : outcome A) : M A := fun w => (o, w).

Record Response := {
  body : string;
  status : Z;
  headers : list (string * string)
}.

(** [new Response(body, { status })]; the status is 200 when none is given. *)
Definition Response_new (b : string) (st : option Z)
    (hs : list (string * string)) : Response :=
  {| body := b;
     status := match st with Some n => n | None => 200 end;
     headers := hs |}.

Record Env := {
  CF_API_TOKEN : jsstring;
  BASIC_USER : jsstring;
  BASIC_PASS : jsstring
}.

(** A request, by what the handler reads of it: the [Authorization] header
    and the query parameters of its URL, in order. *)
Record Request := {
  headers_Authorization : option jsstring;
  searchParams : list (jsstring * jsstring)
}.

(** [searchParams.get(name)]: the first value given for [name]. *)
Definition searchParams_get (request : Request) (key : jsstring)
  : option jsstring :=
  match find (fun kv => JS.eqb (fst kv) key) (searchParams request) with
  | Some kv => Some (snd kv)
  | None => None
  end.

(** [!x] for a string that may be [null] or [undefined]. *)
Definition falsy (x : option jsstring) : bool :=
  match x with
  | Some s => negb (truthy s)
  | None => true
  end.

(** The [WWW-Authenticate] header of a 401 response:
    [Basic realm=<quoted realm>, charset=<quoted UTF-8>]. *)
Definition quoted (s : string) : string :=
  String (ascii_of_nat 34) (s ++ String (ascii_of_nat 34) EmptyString)%string.

Definition challenge (realm : string) : list (string * string) :=
  [("WWW-Authenticate",
    ("Basic realm=" ++ quoted realm ++ ", charset=" ++ quoted "UTF-8")%string)].

Section Worker.

Context `{IpAddress}.

(** [fetch], lines 35-163.  [cloudflare] is the client of line 36, by the
    answers the provider gives it. *)
Definition fetch (cloudflare : Cloudflare) (request : Request) (env : Env)
  : M Response :=
  let authorization := headers_Authorization request in
  if falsy authorization then
    ret (Response_new "You need to login." (Some 401)
           (challenge "my scope"))
  else
  let parts :=
    split (match authorization with Some a => a | None => [] end) (lit " ") in
  let scheme := nth_error parts 0 in
  let encoded := nth_error parts 1 in
  if falsy encoded
     || negb (match scheme with Some s => JS.eqb s (lit "Basic") | None => false end)
  then ret (Response_new "Malformed authorization header." (Some 400) [])
  else
  let credentials :=
    Buffer_toString
      (Buffer_from_base64 (match encoded with Some e => e | None => [] end)) in
  let index := indexOf credentials (lit ":") in
  let user := substring credentials 0 index in
  let pass := substring_from credentials (index + 1) in
  userOk <- lift (timingSafeEqual (BASIC_USER env) user) ;;
  passOk <- (if negb userOk then ret false
             else lift (timingSafeEqual (BASIC_PASS env) pass)) ;;
  if negb userOk || negb passOk then
    ret (Response_new "You need to login." (Some 401)
           (challenge "Cloudflare DDNS Worker"))
  else
  let hostname := searchParams_get request (lit "hostname") in
  let myip := searchParams_get request (lit "myip") in
  if falsy hostname then
    ret (Response_new "No hostname provided" (Some 400) [])
  else
  if falsy myip then
    ret (Response_new "No myip provided" (Some 400) [])
  else
  let hostname := match hostname with Some h => h | None => [] end in
  let myip := match myip with Some m => m | None => [] end in
  zones <- call ZonesList (zones_list cloudflare) ;;
  let zone := find (fun z => endsWith hostname (zone_name z)) zones in
  match zone with
  | None => ret (Response_new "Zone not found" (Some 400) [])
  | Some zone =>
      try_catch
        (let address :=
           if Address4_isValid myip then Some (Address4 myip)
           else if Address6_isValid myip then Some (Address6 myip)
           else None in
         match address with
         | None => ret (Response_new "Invalid IP address" (Some 400) [])
         | Some address =>
             records <- call (RecordsList (zone_id zone))
                             (dns_records_list cloudflare (zone_id zone)) ;;
             let record :=
               find (fun r => JS.eqb (record_name r) hostname) records in
             let baseRecord (t : RecordType) :=
               {| content := correctForm address;
                  name := if JS.eqb hostname (zone_name zone) then lit "@"
                          else nth 0 (split hostname (lit "." ++ zone_name zone)) [];
                  ttl := 300;
                  proxied := false;
                  type := t |} in
             let newRecord :=
               if Address4_isValid myip then Some (baseRecord A)
               else if Address6_isValid myip then Some (baseRecord AAAA)
               else None in
             match newRecord with
             | None => ret (Response_new "Invalid IP address" (Some 400) [])
             | Some newRecord =>
                 if falsy (match record with
                           | Some r => record_id r
                           | None => None
                           end)
                 then
                   call (RecordsCreate (zone_id zone) newRecord)
                        (dns_records_create cloudflare (zone_id zone) newRecord) ;;;
                   ret (Response_new "DNS record created successfully" None [])
                 else
                   match record with
                   | Some r =>
                       let id := match record_id r with
                                 | Some i => i
                                 | None => []
                                 end in
                       call (RecordsUpdate id (zone_id zone) newRecord)
                            (dns_records_update cloudflare id (zone_id zone) newRecord)
                   | None => ret tt
                   end ;;;
                   ret (Response_new "DNS record updated successfully" None [])
             end
         end)
        (fun error =>
           console_error error ;;;
           ret (Response_new "Error modifying DNS record" (Some 500) []))
  end.

(** *** The handler by stages

    The same handler cut at its early returns, last stage first;
    [fetch_stages] below shows that [fetch] is their composition. *)

(** Lines 104-162: the [try] block, for the zone found. *)
Definition upsert (cloudflare : Cloudflare) (zone : Zone)
    (hostname myip : jsstring) : M Response :=
  try_catch
    (let address :=
       if Address4_isValid myip then Some (Address4 myip)
       else if Address6_isValid myip then Some (Address6 myip)
       else None in
     match address with
     | None => ret (Response_new "Invalid IP address" (Some 400) [])
     | Some address =>
         records <- call (RecordsList (zone_id zone))
                         (dns_records_list cloudflare (zone_id zone)) ;;
         let record :=
           find (fun r => JS.eqb (record_name r) hostname) records in
         let baseRecord (t : RecordType) :=
           {| content := correctForm address;
              name := if JS.eqb hostname (zone_name zone) then lit "@"
                      else nth 0 (split hostname (lit "." ++ zone_name zone)) [];
              ttl := 300;
              proxied := false;
              type := t |} in
         let newRecord :=
           if Address4_isValid myip then Some (baseRecord A)
           else if Address6_isValid myip then Some (baseRecord AAAA)
           else None in
         match newRecord with
         | None => ret (Response_new "Invalid IP address" (Some 400) [])
         | Some newRecord =>
             if falsy (match record with
                       | Some r => record_id r
                       | None => None
                       end)
             then
               call (RecordsCreate (zone_id zone) newRecord)
                    (dns_records_create cloudflare (zone_id zone) newRecord) ;;;
               ret (Response_new "DNS record created successfully" None [])
             else
               match record with
               | Some r =>
                   let id := match record_id r with
                             | Some i => i
                             | None => []
                             end in
                   call (RecordsUpdate id (zone_id zone) newRecord)
                        (dns_records_update cloudflare id (zone_id zone) newRecord)
               | None => ret tt
               end ;;;
               ret (Response_new "DNS record updated successfully" None [])
         end
     end)
    (fun error =>
       console_error error ;;;
       ret (Response_new "Error modifying DNS record" (Some 500) [])).

(** Lines 96-102: the zones are listed and the zone of the hostname found. *)
Definition resolve (cloudflare : Cloudflare) (hostname myip : jsstring)
  : M Response :=
  zones <- call ZonesList (zones_list cloudflare) ;;
  match find (fun z => endsWith hostname (zone_name z)) zones with
  | None => ret (Response_new "Zone not found" (Some 400) [])
  | Some zone => upsert cloudflare zone hostname myip
  end.

(** Lines 83-94: the query parameters. *)
Definition validate (cloudflare : Cloudflare) (request : Request)
  : M Response :=
  let hostname := searchParams_get request (lit "hostname") in
  let myip := searchParams_get request (lit "myip") in
  if falsy hostname then
    ret (Response_new "No hostname provided" (Some 400) [])
  else
  if falsy myip then
    ret (Response_new "No myip provided" (Some 400) [])
  else
  resolve cloudflare
    (match hostname with Some h => h | None => [] end)
    (match myip with Some m => m | None => [] end).

(** Lines 43-81: the credential check; [next] is the rest of the handler. *)
Definition authenticate (request : Request) (env : Env)
    (next : M Response) : M Response :=
  let authorization := headers_Authorization request in
  if falsy authorization then
    ret (Response_new "You need to login." (Some 401)
           (challenge "my scope"))
  else
  let parts :=
    split (match authorization with Some a => a | None => [] end) (lit " ") in
  let scheme := nth_error parts 0 in
  let encoded := nth_error parts 1 in
  if falsy encoded
     || negb (match scheme with Some s => JS.eqb s (lit "Basic") | None => false end)
  then ret (Response_new "Malformed authorization header." (Some 400) [])
  else
  let credentials :=
    Buffer_toString
      (Buffer_from_base64 (match encoded with Some e => e | None => [] end)) in
  let index := indexOf credentials (lit ":") in
  let user := substring credentials 0 index in
  let pass := substring_from credentials (index + 1) in
  userOk <- lift (timingSafeEqual (BASIC_USER env) user) ;;
  passOk <- (if negb userOk then ret false
             else lift (timingSafeEqual (BASIC_PASS env) pass)) ;;
  if negb userOk || negb passOk then
    ret (Response_new "You need to login." (Some 401)
           (challenge "Cloudflare DDNS Worker"))
  else next.

End Worker.

(** ** Vocabulary of the properties *)

Definition is_suffix (t s : jsstring) : Prop := exists pre, s = pre ++ t.

(** [x] is the first element of [l] that has [P]. *)
Definition first_such {X} (P : X -> Prop) (l : list X) (x : X) : Prop :=
  exists pre post, l = pre ++ x :: post /\ P x /\ forall y, In y pre -> ~ P y.

Definition colon : Z := 58.

(** A Unicode scalar value: a code point that is no surrogate. *)
Definition scalar (cp : Z) : Prop :=
  0 <= cp < 0xD800 \/ 0xE000 <= cp < 0x110000.

(** The states the decoder can be in.  In each of them the code point read
    so far is in the range that leads to a scalar value. *)
Definition decoder_ok (st : decoder) : Prop :=
  let cp := code_point st in
  let lo := lower_boundary st in
  let hi := upper_boundary st in
  0x80 <= lo /\ hi <= 0xBF
  /\ (bytes_needed st = 0
      \/ (bytes_needed st = 1 /\ bytes_seen st = 0 /\ 2 <= cp <= 31)
      \/ (bytes_needed st = 2 /\ bytes_seen st = 0 /\ 0 <= cp <= 15
          /\ (cp = 0 -> 0xA0 <= lo) /\ (cp = 13 -> hi <= 0x9F))
      \/ (bytes_needed st = 2 /\ bytes_seen st = 1
          /\ 0x20 <= cp <= 0x3FF /\ ~ 0x360 <= cp <= 0x37F)
      \/ (bytes_needed st = 3 /\ bytes_seen st = 0 /\ 0 <= cp <= 4
          /\ (cp = 0 -> 0x90 <= lo) /\ (cp = 4 -> hi <= 0x8F))
      \/ (bytes_needed st = 3 /\ bytes_seen st = 1 /\ 0x10 <= cp <= 0x10F)
      \/ (bytes_needed st = 3 /\ bytes_seen st = 2 /\ 0x400 <= cp <= 0x43FF)).

(** The token of a header of the form [Basic <token>] (lines 43-60). *)
Definition header_token (request : Request) : option jsstring :=
  match headers_Authorization request with
  | Some authorization =>
      match split authorization (lit " ") with
      | scheme :: encoded :: _ =>
          if truthy authorization && truthy encoded && JS.eqb scheme (lit "Basic")
          then Some encoded
          else None
      | _ => None
      end
  | None => None
  end.

(** The credential string a token decodes to (line 62). *)
Definition decoded (encoded : jsstring) : jsstring :=
  Buffer_toString (Buffer_from_base64 encoded).

(** Whether the bytes of [user] and [pass] are those of the expected
    credentials. *)
Definition accepts (env : Env) (user pass : jsstring) : Prop :=
  TextEncoder_encode (BASIC_USER env) = TextEncoder_encode user
  /\ TextEncoder_encode (BASIC_PASS env) = TextEncoder_encode pass.

(** The request carries credentials the handler accepts. *)
Definition authenticated (request : Request) (env : Env) : Prop :=
  exists encoded,
    header_token request = Some encoded
    /\ let credentials := decoded encoded in
       let index := indexOf credentials (lit ":") in
       accepts env (substring credentials 0 index)
                   (substring_from credentials (index + 1)).

(** The request has both parameters, non-empty. *)
Definition validated (request : Request) (hostname myip : jsstring) : Prop :=
  searchParams_get request (lit "hostname") = Some hostname
  /\ truthy hostname = true
  /\ searchParams_get request (lit "myip") = Some myip
  /\ truthy myip = true.

Definition is_write (c : Call) : bool :=
  match c with
  | RecordsCreate _ _ | RecordsUpdate _ _ _ => true
  | _ => false
  end.

Definition unauthorized : Response :=
  {| body := "You need to login.";
     status := 401;
     headers := challenge "Cloudflare DDNS Worker" |}.

Definition zone_not_found : Response :=
  {| body := "Zone not found"; status := 400; headers := [] |}.

Definition invalid_address : Response :=
  {| body := "Invalid IP address"; status := 400; headers := [] |}.

(** The record type and content a literal stands for, [None] when it is
    neither a valid IPv4 nor a valid IPv6 literal. *)
Definition classify `{IpAddress} (myip : jsstring)
  : option (RecordType * jsstring) :=
  if Address4_isValid myip then Some (A, Address4_correctForm myip)
  else if Address6_isValid myip then Some (AAAA, Address6_correctForm myip)
  else None.

(** The world after [console.error(e)]. *)
Definition reported (e : exn) (w : World) : World :=
  {| calls := calls w; console := console w ++ [e] |}.

(** The body built at lines 117-136 for a record of type [t] and content
    [c]. *)
Definition new_record (zone : Zone) (hostname : jsstring) (t : RecordType)
    (c : jsstring) : NewRecord :=
  {| content := c;
     name := if JS.eqb hostname (zone_name zone) then lit "@"
             else nth 0 (split hostname (lit "." ++ zone_name zone)) [];
     ttl := 300;
     proxied := false;
     type := t |}.

Definition server_error : Response :=
  {| body := "Error modifying DNS record"; status := 500; headers := [] |}.

Definition created : Response :=
  {| body := "DNS record created successfully"; status := 200; headers := [] |}.

Definition updated : Response :=
  {| body := "DNS record updated successfully"; status := 200; headers := [] |}.

(** ** A reference instance of the address library *)

Module IpModel.

Definition is_digit (c : Z) : bool := (48 <=? c) && (c <=? 57).

Fixpoint join (sep : jsstring) (l : list jsstring) : jsstring :=
  match l with
  | [] => []
  | [x] => x
  | x :: l' => x ++ sep ++ join sep l'
  end.

Fixpoint sequence {A} (l : list (option A)) : option (list A) :=
  match l with
  | [] => Some []
  | Some x :: l' =>
      match sequence l' with Some xs => Some (x :: xs) | None => None end
  | None :: _ => None
  end.

Definition decimal_value (s : jsstring) : Z :=
  fold_left (fun acc c => acc * 10 + (c - 48)) s 0.

(** Modelled from the spec: an octet is one to three decimal digits with no
    leading zero, of value at most 255. *)
Definition octet (s : jsstring) : option Z :=
  match s with
  | [] => None
  | c :: rest =>
      if forallb is_digit s && (length s <=? 3)%nat
         && (negb (c =? 48) || negb (truthy rest))
         && (decimal_value s <=? 255)
      then Some (decimal_value s)
      else None
  end.

Definition parse4 (s : jsstring) : option (list Z) :=
  match sequence (map octet (split s (lit "."))) with
  | Some [a; b; c; d] => Some [a; b; c; d]
  | _ => None
  end.

Definition decimal (v : Z) : jsstring :=
  if v <? 10 then [48 + v]
  else if v <? 100 then [48 + v / 10; 48 + v mod 10]
  else [48 + v / 100; 48 + (v / 10) mod 10; 48 + v mod 10].

Definition hex_value (c : Z) : option Z :=
  if is_digit c then Some (c - 48)
  else if (97 <=? c) && (c <=? 102) then Some (c - 97 + 10)
  else if (65 <=? c) && (c <=? 70) then Some (c - 65 + 10)
  else None.

Definition hextet (s : jsstring) : option Z :=
  if truthy s && (length s <=? 4)%nat then
    match sequence (map hex_value s) with
    | Some ds => Some (fold_left (fun acc d => acc * 16 + d) ds 0)
    | None => None
    end
  else None.

(** The groups of one side of an address; the last one may be a dotted
    IPv4 tail, which stands for two groups. *)
Fixpoint hextets (parts : list jsstring) : option (list Z) :=
  match parts with
  | [] => Some []
  | [x] =>
      match hextet x, parse4 x with
      | Some v, _ => Some [v]
      | None, Some [a; b; c; d] => Some [a * 256 + b; c * 256 + d]
      | None, _ => None
      end
  | x :: parts' =>
      match hextet x, hextets parts' with
      | Some v, Some vs => Some (v :: vs)
      | _, _ => None
      end
  end.

Definition side (s : jsstring) : option (list Z) :=
  if truthy s then hextets (split s (lit ":")) else Some [].

(** Modelled from the spec: colon-hex notation, at most one [::], an
    optional IPv4 tail; eight groups once expanded. *)
Definition parse6 (s : jsstring) : option (list Z) :=
  match split s (lit "::") with
  | [whole] =>
      match side whole with
      | Some g => if (length g =? 8)%nat then Some g else None
      | None => None
      end
  | [l; r] =>
      match side l, side r with
      | Some a, Some b =>
          if (length a + length b <=? 7)%nat
          then Some (a ++ repeat 0 (8 - (length a + length b)) ++ b)
          else None
      | _, _ => None
      end
  | _ => None
  end.

Definition hex_digit (d : Z) : Z := if d <? 10 then 48 + d else 97 + d - 10.

Definition hex (v : Z) : jsstring :=
  if v <? 16 then [hex_digit v]
  else if v <? 256 then [hex_digit (v / 16); hex_digit (v mod 16)]
  else if v <? 4096 then
    [hex_digit (v / 256); hex_digit ((v / 16) mod 16); hex_digit (v mod 16)]
  else [hex_digit (v / 4096); hex_digit ((v / 256) mod 16);
        hex_digit ((v / 16) mod 16); hex_digit (v mod 16)].

Fixpoint zero_run (l : list Z) : nat :=
  match l with
  | 0 :: l' => S (zero_run l')
  | _ => O
  end.

(** The first longest run of zero groups, as (start, length). *)
Fixpoint best_run (i : nat) (l : list Z) (best : nat * nat) : nat * nat :=
  match l with
  | [] => best
  | _ :: l' =>
      let n := zero_run l in
      best_run (S i) l' (if (snd best <? n)%nat then (i, n) else best)
  end.

(** Modelled from the spec: lowercase groups without leading zeros, the
    longest run of two or more zero groups shortened to [::]. *)
Definition canonical6 (g : list Z) : jsstring :=
  let (start, n) := best_run O g (O, O) in
  if (n <? 2)%nat then join (lit ":") (map hex g)
  else join (lit ":") (map hex (firstn start g))
       ++ lit "::"
       ++ join (lit ":") (map hex (skipn (start + n) g)).

#[export] Instance reference : IpAddress := {
  Address4_isValid s := match parse4 s with Some _ => true | None => false end;
  Address4_correctForm s :=
    match parse4 s with
    | Some l => join (lit ".") (map decimal l)
    | None => []
    end;
  Address6_isValid s := match parse6 s with Some _ => true | None => false end;
  Address6_correctForm s :=
    match parse6 s with
    | Some g => canonical6 g
    | None => []
    end
}.

End IpModel.

#[global] Existing Instance IpModel.reference.

(** ** A sample account and sample requests *)

Module Sample.

Import IpModel.

Definition env : Env :=
  {| CF_API_TOKEN := lit "token";
     BASIC_USER := lit "user";
     BASIC_PASS := lit "pass" |}.

(** A request with the header [Basic base64(user:pass)]. *)
Definition request (hostname myip : string) : Request :=
  {| headers_Authorization := Some (lit "Basic dXNlcjpwYXNz");
     searchParams := [(lit "hostname", lit hostname); (lit "myip", lit myip)] |}.

Definition example_com : Zone :=
  {| zone_id := lit "z1"; zone_name := lit "example.com" |}.

Definition example_net : Zone :=
  {| zone_id := lit "z2"; zone_name := lit "example.net" |}.

(** An account with two zones whose calls all succeed. *)
Definition account (records : list DnsRecord) : Cloudflare :=
  {| zones_list := Returned [example_com; example_net];
     dns_records_list := fun _ => Returned records;
     dns_records_create := fun _ _ => Returned tt;
     dns_records_update := fun _ _ _ => Returned tt |}.

(** A provider whose zone listing fails. *)
Definition unreachable : Cloudflare :=
  {| zones_list := Thrown (Error "fetch failed");
     dns_records_list := fun _ => Returned [];
     dns_records_create := fun _ _ => Returned tt;
     dns_records_update := fun _ _ _ => Returned tt |}.

Definition home_record (id : option jsstring) : DnsRecord :=
  {| record_id := id;
     record_name := lit "home.example.com";
     record_type := lit "A";
     record_content := lit "203.0.113.1" |}.

End Sample.

(** ** The outcomes of a request *)

Definition login_required : Response :=
  {| body := "You need to login."; status := 401;
     headers := challenge "my scope" |}.

Definition malformed : Response :=
  {| body := "Malformed authorization header."; status := 400;
     headers := [] |}.

Definition no_hostname : Response :=
  {| body := "No hostname provided"; status := 400; headers := [] |}.

Definition no_myip : Response :=
  {| body := "No myip provided"; status := 400; headers := [] |}.

(** The request passed the credential and parameter checks, [zone] is the
    zone found for its hostname and its address is classified. *)
Definition resolved `{IpAddress} (cloudflare : Cloudflare) (request : Request)
    (env : Env) (hostname myip : jsstring) (zone : Zone) (t : RecordType)
    (c : jsstring) : Prop :=
  authenticated request env
  /\ validated request hostname myip
  /\ (exists zones,
        zones_list cloudflare = Returned zones
        /\ first_such (fun z => is_suffix (zone_name z) hostname) zones zone)
  /\ classify myip = Some (t, c).

(** No listed record can be updated: none has the name of the hostname, or
    the first that has it lacks an id. *)
Definition nothing_to_update (hostname : jsstring) (records : list DnsRecord)
  : Prop :=
  (forall r, In r records -> record_name r <> hostname)
  \/ exists r,
       first_such (fun r => record_name r = hostname) records r
       /\ (record_id r = None \/ record_id r = Some []).

(** All the ways a request can end: the result and the world after it. *)
Inductive handled `{IpAddress} (cloudflare : Cloudflare) (request : Request)
    (env : Env) (w : World) : outcome Response * World -> Prop :=
| handled_no_header :
    falsy (headers_Authorization request) = true ->
    handled cloudflare request env w (Returned login_required, w)
| handled_malformed :
    falsy (headers_Authorization request) = false ->
    header_token request = None ->
    handled cloudflare request env w (Returned malformed, w)
| handled_rejected encoded :
    header_token request = Some encoded ->
    ~ authenticated request env ->
    handled cloudflare request env w (Returned unauthorized, w)
| handled_no_hostname :
    authenticated request env ->
    falsy (searchParams_get request (lit "hostname")) = true ->
    handled cloudflare request env w (Returned no_hostname, w)
| handled_no_myip :
    authenticated request env ->
    falsy (searchParams_get request (lit "hostname")) = false ->
    falsy (searchParams_get request (lit "myip")) = true ->
    handled cloudflare request env w (Returned no_myip, w)
| handled_zones_failed hostname myip e :
    authenticated request env ->
    validated request hostname myip ->
    zones_list cloudflare = Thrown e ->
    handled cloudflare request env w (Thrown e, logged ZonesList w)
| handled_no_zone hostname myip zones :
    authenticated request env ->
    validated request hostname myip ->
    zones_list cloudflare = Returned zones ->
    (forall z, In z zones -> ~ is_suffix (zone_name z) hostname) ->
    handled cloudflare request env w
      (Returned zone_not_found, logged ZonesList w)
| handled_bad_address hostname myip zones zone :
    authenticated request env ->
    validated request hostname myip ->
    zones_list cloudflare = Returned zones ->
    first_such (fun z => is_suffix (zone_name z) hostname) zones zone ->
    classify myip = None ->
    handled cloudflare request env w
      (Returned invalid_address, logged ZonesList w)
| handled_records_failed hostname myip zone t c e :
    resolved cloudflare request env hostname myip zone t c ->
    dns_records_list cloudflare (zone_id zone) = Thrown e ->
    handled cloudflare request env w
      (Returned server_error,
       reported e (logged (RecordsList (zone_id zone)) (logged ZonesList w)))
| handled_created hostname myip zone t c records :
    resolved cloudflare request env hostname myip zone t c ->
    dns_records_list cloudflare (zone_id zone) = Returned records ->
    nothing_to_update hostname records ->
    dns_records_create cloudflare (zone_id zone)
      (new_record zone hostname t c) = Returned tt ->
    handled cloudflare request env w
      (Returned created,
       logged (RecordsCreate (zone_id zone) (new_record zone hostname t c))
         (logged (RecordsList (zone_id zone)) (logged ZonesList w)))
| handled_create_failed hostname myip zone t c records e :
    resolved cloudflare request env hostname myip zone t c ->
    dns_records_list cloudflare (zone_id zone) = Returned records ->
    nothing_to_update hostname records ->
    dns_records_create cloudflare (zone_id zone)
      (new_record zone hostname t c) = Thrown e ->
    handled cloudflare request env w
      (Returned server_error,
       reported e
         (logged (RecordsCreate (zone_id zone) (new_record zone hostname t c))
            (logged (RecordsList (zone_id zone)) (logged ZonesList w))))
| handled_updated hostname myip zone t c records record id :
    resolved cloudflare request env hostname myip zone t c ->
    dns_records_list cloudflare (zone_id zone) = Returned records ->
    first_such (fun r => record_name r = hostname) records record ->
    record_id record = Some id ->
    id <> [] ->
    dns_records_update cloudflare id (zone_id zone)
      (new_record zone hostname t c) = Returned tt ->
    handled cloudflare request env w
      (Returned updated,
       logged (RecordsUpdate id (zone_id zone) (new_record zone hostname t c))
         (logged (RecordsList (zone_id zone)) (logged ZonesList w)))
| handled_update_failed hostname myip zone t c records record id e :
    resolved cloudflare request env hostname myip zone t c ->
    dns_records_list cloudflare (zone_id zone) = Returned records ->
    first_such (fun r => record_name r = hostname) records record ->
    record_id record = Some id ->
    id <> [] ->
    dns_records_update cloudflare id (zone_id zone)
      (new_record zone hostname t c) = Thrown e ->
    handled cloudflare request env w
      (Returned server_error,
       reported e
         (logged (RecordsUpdate id (zone_id zone)
                    (new_record zone hostname t c))
            (logged (RecordsList (zone_id zone)) (logged ZonesList w)))).

(** ** Providers that fail *)

Module Faulty.

(** The record listing fails. *)
Definition listing : Cloudflare :=
  {| zones_list := Returned [Sample.example_com; Sample.example_net];
     dns_records_list := fun _ => Thrown (Error "listing failed");
     dns_records_create := fun _ _ => Returned tt;
     dns_records_update := fun _ _ _ => Returned tt |}.

(** The record listing succeeds, every write fails. *)
Definition writes (records : list DnsRecord) : Cloudflare :=
  {| zones_list := Returned [Sample.example_com; Sample.example_net];
     dns_records_list := fun _ => Returned records;
     dns_records_create := fun _ _ => Thrown (Error "create failed");
     dns_records_update := fun _ _ _ => Thrown (Error "update failed") |}.

End Faulty.

(** ** Proof automation *)

(** Linear arithmetic with division and remainder by constants. *)
Ltac arith := Z.div_mod_to_equations; lia.

Ltac settle_test :=
  match goal with
  | |- context [?a <=? ?b] =>
      first [ rewrite (proj2 (Z.leb_le a b)) by arith
            | rewrite (proj2 (Z.leb_gt a b)) by arith ]
  | |- context [?a <? ?b] =>
      first [ rewrite (proj2 (Z.ltb_lt a b)) by arith
            | rewrite (proj2 (Z.ltb_ge a b)) by arith ]
  | |- context [?a =? ?b] =>
      first [ rewrite (proj2 (Z.eqb_eq a b)) by arith
            | rewrite (proj2 (Z.eqb_neq a b)) by arith ]
  end.

Ltac run_decoder :=
  repeat first
    [ progress cbn [decoder_run code_point bytes_seen bytes_needed
                    lower_boundary upper_boundary andb orb app]
    | progress unfold decoder_step, decoder_lead, decoder_init
    | settle_test ].

Ltac tests_to_arith :=
  repeat match goal with
  | H : _ && _ = true |- _ => apply andb_true_iff in H as [? ?]
  | H : _ && _ = false |- _ => apply andb_false_iff in H
  | H : _ || _ = true |- _ => apply orb_true_iff in H
  | H : _ || _ = false |- _ => apply orb_false_iff in H as [? ?]
  | H : (_ <=? _) = true |- _ => apply Z.leb_le in H
  | H : (_ <=? _) = false |- _ => apply Z.leb_gt in H
  | H : (_ <? _) = true |- _ => apply Z.ltb_lt in H
  | H : (_ <? _) = false |- _ => apply Z.ltb_ge in H
  | H : (_ =? _) = true |- _ => apply Z.eqb_eq in H
  | H : (_ =? _) = false |- _ => apply Z.eqb_neq in H
  end.

Ltac split_tests :=
  repeat match goal with
  | |- context [if ?c then _ else _] => destruct c eqn:?
  end.

(** * Properties *)

(** ** JavaScript strings *)

Lemma jsstring_eqb_eq (a b : jsstring) : JS.eqb a b = true <-> a = b.
Proof.
  revert b; induction a as [|x a IH]; intros [|y b]; simpl; split; try easy.
  - intros Hxy. apply andb_true_iff in Hxy as [Hx Ha].
    apply Z.eqb_eq in Hx. apply IH in Ha. congruence.
  - intros [= -> ->]. rewrite Z.eqb_refl. now apply IH.
Qed.

Lemma jsstring_eqb_refl (a : jsstring) : JS.eqb a a = true.
Proof. now apply jsstring_eqb_eq. Qed.

Lemma jsstring_eqb_neq (a b : jsstring) : JS.eqb a b = false <-> a <> b.
Proof.
  destruct (JS.eqb a b) eqn:E; split; intros Hab; try easy.
  - apply jsstring_eqb_eq in E. contradiction.
  - intros ->. rewrite jsstring_eqb_refl in E. discriminate.
Qed.

Lemma startsWith_prefix (s t : jsstring) :
  startsWith s t = true <-> exists post, s = t ++ post.
Proof.
  revert s; induction t as [|y t IH]; intros s; simpl.
  - split; [intros _; now exists s | intros _; now destruct s].
  - destruct s as [|x s]; simpl.
    + split; [discriminate | intros [post Hpost]; discriminate].
    + rewrite andb_true_iff, Z.eqb_eq, IH. split.
      * intros [-> [post ->]]. now exists post.
      * intros [post [= -> ->]]. split; [reflexivity | now exists post].
Qed.

Lemma startsWith_app (t post : jsstring) : startsWith (t ++ post) t = true.
Proof. apply startsWith_prefix. now exists post. Qed.

Lemma endsWith_suffix (s t : jsstring) :
  endsWith s t = true <-> is_suffix t s.
Proof.
  unfold endsWith, is_suffix.
  rewrite andb_true_iff, Nat.leb_le, jsstring_eqb_eq. split.
  - intros [_ Hskip]. exists (firstn (length s - length t) s).
    rewrite <- Hskip at 2. symmetry. apply firstn_skipn.
  - intros [pre ->]. rewrite length_app. split; [lia|].
    replace (length pre + length t - length t)%nat with (length pre) by lia.
    now rewrite skipn_app, skipn_all, Nat.sub_diag.
Qed.

Lemma endsWith_not_suffix (s t : jsstring) :
  endsWith s t = false <-> ~ is_suffix t s.
Proof.
  rewrite <- endsWith_suffix. now destruct (endsWith s t).
Qed.

(** [indexOf] of a one-character string. *)
Lemma indexOf_from_absent (c : Z) (s : jsstring) (i : Z) :
  ~ In c s -> indexOf_from i s [c] = -1.
Proof.
  revert i; induction s as [|x s IH]; intros i Hc; simpl; [reflexivity|].
  destruct (Z.eqb_spec x c) as [->|_]; simpl.
  - contradiction Hc. now left.
  - apply IH. intros Hin. apply Hc. now right.
Qed.

Lemma indexOf_from_first (c : Z) (u p : jsstring) (i : Z) :
  ~ In c u -> indexOf_from i (u ++ c :: p) [c] = i + Z.of_nat (length u).
Proof.
  revert i; induction u as [|x u IH]; intros i Hc.
  - simpl. rewrite Z.eqb_refl. simpl. lia.
  - cbn [app indexOf_from startsWith].
    destruct (Z.eqb_spec x c) as [->|_].
    + contradiction Hc. now left.
    + cbn [andb]. rewrite IH by (intros Hin; apply Hc; now right).
      cbn [length]. lia.
Qed.

Lemma indexOf_absent (c : Z) (s : jsstring) :
  ~ In c s -> indexOf s [c] = -1.
Proof. apply indexOf_from_absent. Qed.

Lemma indexOf_first (c : Z) (u p : jsstring) :
  ~ In c u -> indexOf (u ++ c :: p) [c] = Z.of_nat (length u).
Proof. intros Hc. unfold indexOf. now rewrite indexOf_from_first. Qed.

(** A string that contains [c] splits at its first occurrence. *)
Lemma first_occurrence (c : Z) (s : jsstring) :
  In c s -> exists u p, s = u ++ c :: p /\ ~ In c u.
Proof.
  induction s as [|x s IH]; intros Hin; [destruct Hin|].
  destruct (Z.eq_dec x c) as [->|Hx].
  - exists [], s. split; [reflexivity | intros []].
  - destruct Hin as [->|Hin]; [contradiction|].
    destruct (IH Hin) as (u & p & -> & Hu).
    exists (x :: u), p. split; [reflexivity|].
    intros [->|Hin']; [now contradiction Hx | contradiction].
Qed.

Lemma clamp_inside (s : jsstring) (n : nat) :
  (n <= length s)%nat -> clamp s (Z.of_nat n) = n.
Proof. intros Hn. unfold clamp. lia. Qed.

Lemma clamp_negative (s : jsstring) (i : Z) : i <= 0 -> clamp s i = O.
Proof. intros Hi. unfold clamp. lia. Qed.

Lemma substring_prefix (u p : jsstring) :
  substring (u ++ p) 0 (Z.of_nat (length u)) = u.
Proof.
  unfold substring. rewrite clamp_negative by lia.
  rewrite clamp_inside by (rewrite length_app; lia).
  rewrite Nat.min_0_l, Nat.max_0_l, Nat.sub_0_r. simpl.
  now rewrite firstn_app, firstn_all, Nat.sub_diag, app_nil_r.
Qed.

Lemma substring_from_suffix (u p : jsstring) :
  substring_from (u ++ p) (Z.of_nat (length u)) = p.
Proof.
  unfold substring_from, substring.
  rewrite !clamp_inside by (rewrite length_app; lia).
  rewrite length_app, Nat.min_l, Nat.max_r by lia.
  rewrite skipn_app, skipn_all, Nat.sub_diag. simpl.
  apply firstn_all2. lia.
Qed.

Lemma substring_to_minus_one (s : jsstring) : substring s 0 (-1) = [].
Proof. unfold substring. now rewrite !clamp_negative by lia. Qed.

Lemma substring_from_zero (s : jsstring) : substring_from s 0 = s.
Proof.
  unfold substring_from, substring. rewrite clamp_negative by lia.
  rewrite clamp_inside by lia. rewrite Nat.min_0_l, Nat.max_0_l, Nat.sub_0_r.
  simpl. apply firstn_all.
Qed.

(** [split] at a one-character separator. *)
Lemma split_go_absent (c : Z) (s cur : jsstring) :
  ~ In c s -> split_go [c] O cur s = [rev cur ++ s].
Proof.
  revert cur; induction s as [|x s IH]; intros cur Hc.
  - simpl. now rewrite app_nil_r.
  - cbn [split_go startsWith]. destruct (Z.eqb_spec x c) as [->|_].
    + contradiction Hc. now left.
    + cbn [andb]. rewrite IH by (intros Hin; apply Hc; now right).
      simpl. now rewrite <- app_assoc.
Qed.

Lemma split_go_first (c : Z) (a b cur : jsstring) :
  ~ In c a ->
  split_go [c] O cur (a ++ c :: b) = (rev cur ++ a) :: split_go [c] O [] b.
Proof.
  revert cur; induction a as [|x a IH]; intros cur Hc.
  - cbn [app split_go startsWith]. rewrite Z.eqb_refl. simpl.
    now rewrite app_nil_r.
  - cbn [app split_go startsWith]. destruct (Z.eqb_spec x c) as [->|_].
    + contradiction Hc. now left.
    + cbn [andb]. rewrite IH by (intros Hin; apply Hc; now right).
      simpl. now rewrite <- app_assoc.
Qed.

Lemma split_two (c : Z) (a b : jsstring) :
  ~ In c a -> ~ In c b -> split (a ++ c :: b) [c] = [a; b].
Proof.
  intros Ha Hb. unfold split.
  rewrite split_go_first by assumption. now rewrite split_go_absent.
Qed.

(** The first piece of [split] is what comes before the first occurrence
    of the separator. *)
Lemma split_go_head (sep pre rest cur : jsstring) :
  sep <> [] ->
  (forall a b, pre ++ sep ++ rest = a ++ sep ++ b ->
               (length pre <= length a)%nat) ->
  exists pieces,
    split_go sep O cur (pre ++ sep ++ rest) = (rev cur ++ pre) :: pieces.
Proof.
  intros Hsep. revert cur; induction pre as [|x pre IH]; intros cur Hfirst.
  - destruct sep as [|y sep]; [contradiction|].
    pose proof (startsWith_app (y :: sep) rest) as Hstart.
    cbn [app] in *. cbn [split_go]. rewrite Hstart.
    eexists. now rewrite app_nil_r.
  - cbn [app split_go].
    destruct (startsWith (x :: pre ++ sep ++ rest) sep) eqn:Hstart.
    + apply startsWith_prefix in Hstart as [post Hpost].
      specialize (Hfirst [] post Hpost). simpl in Hfirst. lia.
    + destruct (IH (x :: cur)) as [pieces Hpieces].
      * intros a b Hab. specialize (Hfirst (x :: a) b).
        simpl in Hfirst. rewrite Hab in Hfirst.
        specialize (Hfirst eq_refl). lia.
      * exists pieces. rewrite Hpieces. simpl. now rewrite <- app_assoc.
Qed.

Lemma split_head (sep pre rest : jsstring) :
  sep <> [] ->
  (forall a b, pre ++ sep ++ rest = a ++ sep ++ b ->
               (length pre <= length a)%nat) ->
  nth 0 (split (pre ++ sep ++ rest) sep) [] = pre.
Proof.
  intros Hsep Hfirst.
  destruct (split_go_head sep pre rest [] Hsep Hfirst) as [pieces Hpieces].
  unfold split. destruct sep; [contradiction|]. now rewrite Hpieces.
Qed.

(** [split] keeps the empty pieces between and after separators. *)
Example split_header :
  split (lit "Basic dXNlcjpwYXNz") (lit " ")
  = [lit "Basic"; lit "dXNlcjpwYXNz"].
Proof. reflexivity. Qed.

Example split_repeated_separator :
  split (lit "a.example.com.example.com") (lit ".example.com")
  = [lit "a"; []; []].
Proof. reflexivity. Qed.

Example substring_clamps_and_swaps :
  substring (lit "abcdef") 0 (-1) = []
  /\ substring_from (lit "abcdef") 0 = lit "abcdef"
  /\ substring (lit "abcdef") 4 2 = lit "cd".
Proof. repeat split. Qed.

(** ** Bit operations as arithmetic *)

Lemma land_shiftl_low (x y n : Z) :
  0 <= n -> 0 <= y < 2 ^ n -> Z.land (Z.shiftl x n) y = 0.
Proof.
  intros Hn Hy. apply Z.bits_inj'. intros i Hi.
  rewrite Z.land_spec, Z.bits_0.
  destruct (Z.lt_ge_cases i n) as [Hlt|Hge].
  - now rewrite Z.shiftl_spec_low.
  - rewrite andb_false_iff. right.
    destruct (Z.eq_dec y 0) as [->|Hy0]; [apply Z.bits_0|].
    apply Z.bits_above_log2; [lia|].
    apply Z.lt_le_trans with n; [|assumption].
    apply Z.log2_lt_pow2; lia.
Qed.

Lemma lor_shiftl_low (x y n : Z) :
  0 <= n -> 0 <= y < 2 ^ n -> Z.lor (Z.shiftl x n) y = x * 2 ^ n + y.
Proof.
  intros Hn Hy.
  rewrite <- (Z.shiftl_mul_pow2 x n Hn).
  rewrite <- Z.lxor_lor by now apply land_shiftl_low.
  symmetry. apply Z.add_nocarry_lxor. now apply land_shiftl_low.
Qed.

Lemma shiftr_2 (x : Z) : Z.shiftr x 2 = x / 4.
Proof. now rewrite Z.shiftr_div_pow2. Qed.
Lemma shiftr_4 (x : Z) : Z.shiftr x 4 = x / 16.
Proof. now rewrite Z.shiftr_div_pow2. Qed.
Lemma shiftr_6 (x : Z) : Z.shiftr x 6 = x / 64.
Proof. now rewrite Z.shiftr_div_pow2. Qed.
Lemma shiftr_10 (x : Z) : Z.shiftr x 10 = x / 1024.
Proof. now rewrite Z.shiftr_div_pow2. Qed.
Lemma shiftr_12 (x : Z) : Z.shiftr x 12 = x / 4096.
Proof. now rewrite Z.shiftr_div_pow2. Qed.
Lemma shiftr_18 (x : Z) : Z.shiftr x 18 = x / 262144.
Proof. now rewrite Z.shiftr_div_pow2. Qed.
Lemma shiftl_10 (x : Z) : Z.shiftl x 10 = x * 1024.
Proof. now rewrite Z.shiftl_mul_pow2. Qed.

Lemma land_low (n x : Z) : 0 <= n -> Z.land x (2 ^ n - 1) = x mod 2 ^ n.
Proof.
  intros Hn. rewrite <- Z.land_ones by assumption.
  now rewrite Z.ones_equiv, Z.sub_1_r.
Qed.

Lemma land_0x3 (x : Z) : Z.land x 0x3 = x mod 4.
Proof. exact (land_low 2 x ltac:(lia)). Qed.
Lemma land_0x7 (x : Z) : Z.land x 0x7 = x mod 8.
Proof. exact (land_low 3 x ltac:(lia)). Qed.
Lemma land_0xF (x : Z) : Z.land x 0xF = x mod 16.
Proof. exact (land_low 4 x ltac:(lia)). Qed.
Lemma land_0x1F (x : Z) : Z.land x 0x1F = x mod 32.
Proof. exact (land_low 5 x ltac:(lia)). Qed.
Lemma land_0x3F (x : Z) : Z.land x 0x3F = x mod 64.
Proof. exact (land_low 6 x ltac:(lia)). Qed.
Lemma land_0x3FF (x : Z) : Z.land x 0x3FF = x mod 1024.
Proof. exact (land_low 10 x ltac:(lia)). Qed.

(** [hi | lo] where [hi] is a multiple of [2 ^ n] and [lo] is below it. *)
Lemma lor_low (n k lo : Z) :
  0 <= n -> 0 <= lo < 2 ^ n -> Z.lor (k * 2 ^ n) lo = k * 2 ^ n + lo.
Proof.
  intros Hn Hlo. rewrite <- (Z.shiftl_mul_pow2 k n Hn).
  rewrite lor_shiftl_low by assumption. now rewrite Z.shiftl_mul_pow2.
Qed.

Lemma lor_shiftl (n x lo : Z) :
  0 <= n -> 0 <= lo < 2 ^ n -> Z.lor (Z.shiftl x n) lo = x * 2 ^ n + lo.
Proof. intros Hn Hlo. now apply lor_shiftl_low. Qed.

Lemma lor_0x80 (v : Z) : 0 <= v < 64 -> Z.lor 0x80 v = 128 + v.
Proof. intros Hv. exact (lor_low 6 2 v ltac:(lia) ltac:(lia)). Qed.
Lemma lor_0xC0 (v : Z) : 0 <= v < 64 -> Z.lor 0xC0 v = 192 + v.
Proof. intros Hv. exact (lor_low 6 3 v ltac:(lia) ltac:(lia)). Qed.
Lemma lor_0xE0 (v : Z) : 0 <= v < 32 -> Z.lor 0xE0 v = 224 + v.
Proof. intros Hv. exact (lor_low 5 7 v ltac:(lia) ltac:(lia)). Qed.
Lemma lor_0xF0 (v : Z) : 0 <= v < 16 -> Z.lor 0xF0 v = 240 + v.
Proof. intros Hv. exact (lor_low 4 15 v ltac:(lia) ltac:(lia)). Qed.

Lemma continuation_bits (cp b : Z) :
  Z.lor (Z.shiftl cp 6) (Z.land b 0x3F) = cp * 64 + b mod 64.
Proof.
  rewrite land_0x3F. rewrite lor_shiftl by arith. reflexivity.
Qed.

(** ** UTF-8 *)

Lemma utf8_bytes_arith (cp : Z) :
  0 <= cp < 0x110000 ->
  utf8_bytes cp =
  if cp <? 0x80 then [cp]
  else if cp <? 0x800 then [192 + cp / 64; 128 + cp mod 64]
  else if cp <? 0x10000 then
    [224 + cp / 4096; 128 + (cp / 64) mod 64; 128 + cp mod 64]
  else
    [240 + cp / 262144; 128 + (cp / 4096) mod 64;
     128 + (cp / 64) mod 64; 128 + cp mod 64].
Proof.
  intros Hcp. unfold utf8_bytes.
  rewrite shiftr_6, shiftr_12, shiftr_18, !land_0x3F.
  destruct (Z.ltb_spec cp 0x80); [reflexivity|].
  rewrite !lor_0x80 by arith.
  destruct (Z.ltb_spec cp 0x800); [now rewrite lor_0xC0 by arith|].
  destruct (Z.ltb_spec cp 0x10000); [now rewrite lor_0xE0 by arith|].
  now rewrite lor_0xF0 by arith.
Qed.

Lemma decode_1 (b : Z) (rest : list Z) :
  0 <= b <= 0x7F ->
  decoder_run decoder_init (b :: rest) = b :: decoder_run decoder_init rest.
Proof. intros Hb. run_decoder. reflexivity. Qed.

Lemma decode_2 (b0 b1 : Z) (rest : list Z) :
  0xC2 <= b0 <= 0xDF -> 0x80 <= b1 <= 0xBF ->
  decoder_run decoder_init (b0 :: b1 :: rest)
  = (b0 mod 32 * 64 + b1 mod 64) :: decoder_run decoder_init rest.
Proof.
  intros H0 H1. run_decoder. 
  rewrite continuation_bits, land_0x1F. reflexivity.
Qed.

Lemma decode_3 (b0 b1 b2 : Z) (rest : list Z) :
  0xE0 <= b0 <= 0xEF ->
  0x80 <= b1 <= 0xBF -> 0x80 <= b2 <= 0xBF ->
  (b0 = 0xE0 -> 0xA0 <= b1) -> (b0 = 0xED -> b1 <= 0x9F) ->
  decoder_run decoder_init (b0 :: b1 :: b2 :: rest)
  = ((b0 mod 16 * 64 + b1 mod 64) * 64 + b2 mod 64)
    :: decoder_run decoder_init rest.
Proof.
  intros H0 H1 H2 Hlow Hhigh.
  destruct (Z.eq_dec b0 0xE0) as [->|HE0];
    [|destruct (Z.eq_dec b0 0xED) as [->|HED]];
    run_decoder; rewrite !continuation_bits, land_0xF; reflexivity.
Qed.

Lemma decode_4 (b0 b1 b2 b3 : Z) (rest : list Z) :
  0xF0 <= b0 <= 0xF4 ->
  0x80 <= b1 <= 0xBF -> 0x80 <= b2 <= 0xBF -> 0x80 <= b3 <= 0xBF ->
  (b0 = 0xF0 -> 0x90 <= b1) -> (b0 = 0xF4 -> b1 <= 0x8F) ->
  decoder_run decoder_init (b0 :: b1 :: b2 :: b3 :: rest)
  = (((b0 mod 8 * 64 + b1 mod 64) * 64 + b2 mod 64) * 64 + b3 mod 64)
    :: decoder_run decoder_init rest.
Proof.
  intros H0 H1 H2 H3 Hlow Hhigh.
  destruct (Z.eq_dec b0 0xF0) as [->|HF0];
    [|destruct (Z.eq_dec b0 0xF4) as [->|HF4]];
    run_decoder; rewrite !continuation_bits, land_0x7; reflexivity.
Qed.

(** Decoding the bytes of a scalar value gives the scalar value back. *)
Lemma decode_utf8_bytes (cp : Z) (rest : list Z) :
  scalar cp ->
  decoder_run decoder_init (utf8_bytes cp ++ rest)
  = cp :: decoder_run decoder_init rest.
Proof.
  intros Hcp. rewrite utf8_bytes_arith by (destruct Hcp; lia).
  destruct (Z.ltb_spec cp 0x80).
  { apply decode_1. destruct Hcp; lia. }
  destruct (Z.ltb_spec cp 0x800).
  { cbn [app]. rewrite decode_2 by arith. f_equal. arith. }
  destruct (Z.ltb_spec cp 0x10000).
  { cbn [app]. rewrite decode_3 by (destruct Hcp; arith). f_equal. arith. }
  cbn [app]. rewrite decode_4 by (destruct Hcp; arith). f_equal.
  destruct Hcp; arith.
Qed.

Lemma decode_scalars (l : list Z) :
  Forall scalar l ->
  decoder_run decoder_init (flat_map utf8_bytes l) = l.
Proof.
  induction 1 as [|cp l Hcp Hl IH]; [reflexivity|].
  cbn [flat_map]. rewrite decode_utf8_bytes by assumption. now f_equal.
Qed.

Lemma utf8_bytes_are_bytes (cp : Z) :
  scalar cp -> Forall byte (utf8_bytes cp).
Proof.
  intros Hcp. rewrite utf8_bytes_arith by (destruct Hcp; lia). unfold byte.
  destruct (Z.ltb_spec cp 0x80); [|destruct (Z.ltb_spec cp 0x800);
    [|destruct (Z.ltb_spec cp 0x10000)]];
    repeat constructor; destruct Hcp; arith.
Qed.

Lemma utf8_bytes_nonempty (cp : Z) : utf8_bytes cp <> [].
Proof.
  unfold utf8_bytes.
  destruct (cp <? 0x80); [discriminate|].
  destruct (cp <? 0x800); [discriminate|].
  destruct (cp <? 0x10000); discriminate.
Qed.

(** ** UTF-16 *)

Lemma is_high_spec (c : Z) : is_high c = true <-> 0xD800 <= c <= 0xDBFF.
Proof. unfold is_high. rewrite andb_true_iff, !Z.leb_le. tauto. Qed.

Lemma is_low_spec (c : Z) : is_low c = true <-> 0xDC00 <= c <= 0xDFFF.
Proof. unfold is_low. rewrite andb_true_iff, !Z.leb_le. tauto. Qed.

Lemma is_high_false (c : Z) : is_high c = false <-> c < 0xD800 \/ 0xDBFF < c.
Proof.
  unfold is_high. rewrite andb_false_iff, !Z.leb_gt. tauto.
Qed.

Lemma is_low_false (c : Z) : is_low c = false <-> c < 0xDC00 \/ 0xDFFF < c.
Proof.
  unfold is_low. rewrite andb_false_iff, !Z.leb_gt. tauto.
Qed.

Lemma surrogate_pair (c d : Z) :
  0xD800 <= c <= 0xDBFF -> 0xDC00 <= d <= 0xDFFF ->
  let cp := 0x10000 + Z.shiftl (c - 0xD800) 10 + (d - 0xDC00) in
  scalar cp /\ utf16_units cp = [c; d].
Proof.
  intros Hc Hd cp. subst cp. rewrite shiftl_10. split.
  - right. lia.
  - unfold utf16_units. rewrite shiftr_10, land_0x3FF.
    rewrite (proj2 (Z.ltb_ge _ _)) by lia. f_equal; [arith|f_equal; arith].
Qed.

(** A well-formed string is the UTF-16 form of its scalar values. *)
Lemma scalars_wellformed_both (s : jsstring) :
  (isWellFormed s = true ->
   Forall scalar (scalars s) /\ flat_map utf16_units (scalars s) = s)
  /\ forall c,
      isWellFormed (c :: s) = true ->
      Forall scalar (scalars (c :: s))
      /\ flat_map utf16_units (scalars (c :: s)) = c :: s.
Proof.
  assert (Hunit : forall c s',
    (isWellFormed s' = true ->
     Forall scalar (scalars s') /\ flat_map utf16_units (scalars s') = s') ->
    is_high c = false ->
    negb (is_low c) && (0 <=? c) && (c <? 65536) && isWellFormed s' = true ->
    Forall scalar (scalars (c :: s'))
    /\ flat_map utf16_units (scalars (c :: s')) = c :: s').
  { intros c s' IH Hhigh Hwf.
    rewrite !andb_true_iff, negb_true_iff, Z.leb_le, Z.ltb_lt in Hwf.
    destruct Hwf as [[[Hlow H0] H1] Hs'].
    destruct (IH Hs') as [Hall Hback].
    cbn [scalars]. rewrite Hhigh, Hlow. cbn [flat_map]. rewrite Hback.
    apply is_high_false in Hhigh. apply is_low_false in Hlow. split.
    - constructor; [unfold scalar; lia | assumption].
    - unfold utf16_units. now rewrite (proj2 (Z.ltb_lt _ _)) by lia. }
  induction s as [|d s [IH IHc]].
  - split; [now split|]. intros c Hwf. cbn [isWellFormed] in Hwf.
    destruct (is_high c) eqn:Hhigh; [discriminate|].
    apply Hunit; [now split | assumption..].
  - split; [apply IHc|]. intros c Hwf. cbn [isWellFormed] in Hwf.
    destruct (is_high c) eqn:Hhigh.
    + apply andb_true_iff in Hwf as [Hlow Hs].
      destruct (IH Hs) as [Hall Hback].
      cbn [scalars]. rewrite Hhigh, Hlow. cbn [flat_map].
      apply is_high_spec in Hhigh. apply is_low_spec in Hlow.
      destruct (surrogate_pair c d Hhigh Hlow) as [Hcp Hunits].
      cbv zeta in Hcp, Hunits. rewrite Hunits, Hback.
      split; [now constructor | reflexivity].
    + apply Hunit; [apply IHc | assumption | exact Hwf].
Qed.

Lemma scalars_wellformed (s : jsstring) :
  isWellFormed s = true ->
  Forall scalar (scalars s) /\ flat_map utf16_units (scalars s) = s.
Proof. apply scalars_wellformed_both. Qed.

(** [toString] undoes [encode] on well-formed strings. *)
Lemma toString_encode (s : jsstring) :
  isWellFormed s = true ->
  Buffer_toString (TextEncoder_encode s) = s.
Proof.
  intros Hwf. destruct (scalars_wellformed s Hwf) as [Hall Hback].
  unfold Buffer_toString, TextEncoder_encode.
  now rewrite decode_scalars.
Qed.

Lemma encode_injective (a b : jsstring) :
  isWellFormed a = true -> isWellFormed b = true ->
  TextEncoder_encode a = TextEncoder_encode b -> a = b.
Proof.
  intros Ha Hb Heq. rewrite <- (toString_encode a Ha), Heq.
  now apply toString_encode.
Qed.

Lemma encode_bytes (s : jsstring) :
  isWellFormed s = true -> Forall byte (TextEncoder_encode s).
Proof.
  intros Hwf. destruct (scalars_wellformed s Hwf) as [Hall _].
  unfold TextEncoder_encode. apply Forall_flat_map.
  revert Hall. apply Forall_impl. apply utf8_bytes_are_bytes.
Qed.

Lemma scalars_nonempty (s : jsstring) : s <> [] -> scalars s <> [].
Proof.
  destruct s as [|c s]; [contradiction|]. intros _. cbn [scalars].
  destruct (is_high c); [destruct s as [|d s]; [discriminate|]|].
  - destruct (is_low d); discriminate.
  - destruct (is_low c); discriminate.
Qed.

(** Only the empty string has no bytes. *)
Lemma encode_empty (s : jsstring) : TextEncoder_encode s = [] <-> s = [].
Proof.
  split; [|now intros ->]. intros Hnil.
  destruct s as [|c s]; [reflexivity|].
  unfold TextEncoder_encode in Hnil.
  destruct (scalars (c :: s)) as [|cp l] eqn:Hsc.
  - exfalso. apply (scalars_nonempty (c :: s)); [discriminate | exact Hsc].
  - cbn [flat_map] in Hnil. apply app_eq_nil in Hnil as [Hcp _].
    now apply utf8_bytes_nonempty in Hcp.
Qed.

(** The UTF-16 form of scalar values is well-formed. *)
Lemma units_wellformed (l : list Z) :
  Forall scalar l -> isWellFormed (flat_map utf16_units l) = true.
Proof.
  induction 1 as [|cp l Hcp Hl IH]; [reflexivity|].
  cbn [flat_map]. unfold utf16_units.
  destruct (Z.ltb_spec cp 0x10000) as [Hbmp|Hsup].
  - cbn [app isWellFormed].
    rewrite (proj2 (is_high_false cp)) by (destruct Hcp; lia).
    rewrite (proj2 (is_low_false cp)) by (destruct Hcp; lia).
    rewrite (proj2 (Z.leb_le 0 cp)) by (destruct Hcp; lia).
    rewrite (proj2 (Z.ltb_lt cp 65536)) by lia. exact IH.
  - rewrite shiftr_10, land_0x3FF. cbn [app isWellFormed].
    rewrite (proj2 (is_high_spec _)) by (destruct Hcp; arith).
    rewrite (proj2 (is_low_spec _)) by (destruct Hcp; arith).
    exact IH.
Qed.

Lemma isWellFormed_app (a b : jsstring) :
  isWellFormed a = true -> isWellFormed b = true ->
  isWellFormed (a ++ b) = true.
Proof.
  intros Ha Hb.
  destruct (scalars_wellformed a Ha) as [Hsa <-].
  destruct (scalars_wellformed b Hb) as [Hsb <-].
  rewrite <- flat_map_app. apply units_wellformed.
  apply Forall_app. now split.
Qed.

Lemma decoder_lead_ok (b : Z) :
  decoder_ok (fst (decoder_lead b)) /\ Forall scalar (snd (decoder_lead b)).
Proof.
  unfold decoder_lead, decoder_ok, decoder_init, scalar.
  rewrite land_0x1F, land_0xF, land_0x7.
  split_tests; tests_to_arith; cbn; (split; [arith|]);
    repeat apply Forall_cons; try apply Forall_nil; lia.
Qed.

Lemma decoder_step_ok (st : decoder) (b : Z) :
  decoder_ok st ->
  decoder_ok (fst (decoder_step st b))
  /\ Forall scalar (snd (decoder_step st b)).
Proof.
  intros Hst. unfold decoder_step.
  destruct (bytes_needed st =? 0) eqn:Hneeded; [apply decoder_lead_ok|].
  destruct ((b <? lower_boundary st) || (upper_boundary st <? b)) eqn:Hrange.
  - destruct (decoder_lead_ok b) as [Hok Hout].
    destruct (decoder_lead b) as [st' out]. split; [exact Hok|].
    constructor; [unfold scalar; lia | exact Hout].
  - rewrite continuation_bits.
    destruct st as [cp seen needed lo hi].
    unfold decoder_ok, scalar in *. cbn in *. tests_to_arith.
    destruct Hst as (Hlo & Hhi & [Hs|[Hs|[Hs|[Hs|[Hs|[Hs|Hs]]]]]]).
    + lia.
    + destruct Hs as (-> & -> & Hcp). cbn. split; [lia|].
      constructor; [arith | constructor].
    + destruct Hs as (-> & -> & Hcp & He0 & Hed). cbn.
      split; [|constructor].
      split; [lia|]. split; [lia|]. do 3 right. left. arith.
    + destruct Hs as (-> & -> & Hcp & Hsur). cbn. split; [lia|].
      constructor; [arith | constructor].
    + destruct Hs as (-> & -> & Hcp & Hf0 & Hf4). cbn.
      split; [|constructor].
      split; [lia|]. split; [lia|]. do 5 right. left. arith.
    + destruct Hs as (-> & -> & Hcp). cbn.
      split; [|constructor].
      split; [lia|]. split; [lia|]. do 6 right. arith.
    + destruct Hs as (-> & -> & Hcp). cbn. split; [lia|].
      constructor; [arith | constructor].
Qed.

Lemma decoder_run_scalars (bytes : list Z) (st : decoder) :
  decoder_ok st -> Forall scalar (decoder_run st bytes).
Proof.
  revert st; induction bytes as [|b bytes IH]; intros st Hst.
  - cbn [decoder_run]. destruct (bytes_needed st =? 0);
      [constructor|]. constructor; [unfold scalar; lia | constructor].
  - cbn [decoder_run]. destruct (decoder_step_ok st b Hst) as [Hok Hout].
    destruct (decoder_step st b) as [st' out]. apply Forall_app.
    split; [exact Hout | now apply IH].
Qed.

Lemma decoder_init_ok : decoder_ok decoder_init.
Proof. unfold decoder_ok, decoder_init. cbn. lia. Qed.

(** Whatever the bytes, [toString] yields a well-formed string. *)
Lemma toString_wellformed (bytes : list Z) :
  isWellFormed (Buffer_toString bytes) = true.
Proof.
  apply units_wellformed, decoder_run_scalars, decoder_init_ok.
Qed.

(** ** Base64 *)

Lemma shiftl_2 (x : Z) : Z.shiftl x 2 = x * 4.
Proof. now rewrite Z.shiftl_mul_pow2. Qed.
Lemma shiftl_4 (x : Z) : Z.shiftl x 4 = x * 16.
Proof. now rewrite Z.shiftl_mul_pow2. Qed.

Lemma base64_char_spec (v : Z) :
  0 <= v < 64 ->
  base64_char v <> 61 /\ base64_char v <> 32
  /\ unbase64 (base64_char v) = Some v.
Proof.
  intros Hv. unfold base64_char.
  destruct (Z.ltb_spec v 26);
    [|destruct (Z.ltb_spec v 52);
      [|destruct (Z.ltb_spec v 62); [|destruct (Z.eqb_spec v 62)]]];
    (split; [lia|split; [lia|]]);
    unfold unbase64; repeat settle_test; cbn [andb orb]; f_equal; lia.
Qed.

Lemma sextets_char (v : Z) (s : jsstring) :
  0 <= v < 64 -> sextets (base64_char v :: s) = v :: sextets s.
Proof.
  intros Hv. destruct (base64_char_spec v Hv) as (Hpad & _ & Hun).
  cbn [sextets]. rewrite Hun. now rewrite (proj2 (Z.eqb_neq _ _) Hpad).
Qed.

Lemma list_ind3 (P : list Z -> Prop) :
  P [] -> (forall a, P [a]) -> (forall a b, P [a; b]) ->
  (forall a b c l, P l -> P (a :: b :: c :: l)) ->
  forall l, P l.
Proof.
  intros H0 H1 H2 H3. fix IH 1. intros [|a [|b [|c l]]].
  - exact H0.
  - apply H1.
  - apply H2.
  - apply H3, IH.
Qed.

(** The four characters of a group of three bytes, as arithmetic. *)
Lemma base64_group (a b c : Z) (bytes : list Z) :
  byte a -> byte b -> byte c ->
  Buffer_toString_base64 (a :: b :: c :: bytes)
  = base64_char (a / 4)
    :: base64_char (a mod 4 * 16 + b / 16)
    :: base64_char (b mod 16 * 4 + c / 64)
    :: base64_char (c mod 64)
    :: Buffer_toString_base64 bytes.
Proof.
  unfold byte. intros Ha Hb Hc. cbn [Buffer_toString_base64].
  rewrite shiftr_2, shiftr_4, shiftr_6, land_0x3, land_0xF, land_0x3F.
  rewrite (lor_shiftl 4) by arith. rewrite (lor_shiftl 2) by arith.
  reflexivity.
Qed.

Lemma pack_group (s0 s1 s2 s3 : Z) (l : list Z) :
  0 <= s0 < 64 -> 0 <= s1 < 64 -> 0 <= s2 < 64 -> 0 <= s3 < 64 ->
  pack_sextets (s0 :: s1 :: s2 :: s3 :: l)
  = (s0 * 4 + s1 / 16) :: (s1 mod 16 * 16 + s2 / 4)
    :: (s2 mod 4 * 64 + s3) :: pack_sextets l.
Proof.
  intros H0 H1 H2 H3. cbn [pack_sextets].
  rewrite shiftr_2, shiftr_4, land_0x3, land_0xF.
  rewrite (lor_shiftl 2) by arith. rewrite (lor_shiftl 4) by arith.
  rewrite (lor_shiftl 6) by arith. reflexivity.
Qed.

(** Decoding the padded encoding of bytes gives the bytes back. *)
Lemma base64_roundtrip (bytes : list Z) :
  Forall byte bytes ->
  Buffer_from_base64 (Buffer_toString_base64 bytes) = bytes.
Proof.
  unfold Buffer_from_base64.
  induction bytes as [|a|a b|a b c bytes IH] using list_ind3; intros Hall.
  - reflexivity.
  - inversion Hall as [|? ? Ha _]; subst. unfold byte in Ha.
    cbn [Buffer_toString_base64].
    rewrite shiftr_2, land_0x3, shiftl_4.
    rewrite !sextets_char by arith. cbn [sextets Z.eqb Pos.eqb pack_sextets].
    rewrite shiftr_4, (lor_shiftl 2) by arith. f_equal. arith.
  - inversion Hall as [|? ? Ha Hall']; subst.
    inversion Hall' as [|? ? Hb _]; subst. unfold byte in Ha, Hb.
    cbn [Buffer_toString_base64].
    rewrite shiftr_2, shiftr_4, land_0x3, land_0xF, shiftl_2.
    rewrite (lor_shiftl 4) by arith.
    rewrite !sextets_char by arith. cbn [sextets Z.eqb Pos.eqb pack_sextets].
    rewrite shiftr_2, shiftr_4, land_0xF.
    rewrite (lor_shiftl 2) by arith. rewrite (lor_shiftl 4) by arith.
    f_equal; [arith|]. f_equal. arith.
  - inversion Hall as [|? ? Ha Hall1]; subst.
    inversion Hall1 as [|? ? Hb Hall2]; subst.
    inversion Hall2 as [|? ? Hc Hall3]; subst.
    rewrite base64_group by assumption. unfold byte in Ha, Hb, Hc.
    rewrite !sextets_char by arith. rewrite pack_group by arith.
    rewrite (IH Hall3).
    f_equal; [arith|]. f_equal; [arith|]. f_equal. arith.
Qed.

(** The encoding has no space in it, and is empty for no bytes only. *)
Lemma base64_no_space (bytes : list Z) :
  Forall byte bytes -> ~ In 32 (Buffer_toString_base64 bytes).
Proof.
  induction bytes as [|a|a b|a b c bytes IH] using list_ind3; intros Hall.
  - intros [].
  - inversion Hall as [|? ? Ha _]; subst. unfold byte in Ha.
    cbn [Buffer_toString_base64]. rewrite shiftr_2, land_0x3, shiftl_4.
    intros [Hc|[Hc|[Hc|[Hc|[]]]]]; try discriminate;
      revert Hc; apply base64_char_spec; arith.
  - inversion Hall as [|? ? Ha Hall']; subst.
    inversion Hall' as [|? ? Hb _]; subst. unfold byte in Ha, Hb.
    cbn [Buffer_toString_base64].
    rewrite shiftr_2, shiftr_4, land_0x3, land_0xF, shiftl_2.
    rewrite (lor_shiftl 4) by arith.
    intros [Hc|[Hc|[Hc|[Hc|[]]]]]; try discriminate;
      revert Hc; apply base64_char_spec; arith.
  - inversion Hall as [|? ? Ha Hall1]; subst.
    inversion Hall1 as [|? ? Hb Hall2]; subst.
    inversion Hall2 as [|? ? Hc Hall3]; subst.
    rewrite base64_group by assumption. unfold byte in Ha, Hb, Hc.
    intros [Hin|[Hin|[Hin|[Hin|Hin]]]]; [| | | |now apply IH];
      revert Hin; apply base64_char_spec; arith.
Qed.

Lemma base64_nonempty (bytes : list Z) :
  bytes <> [] -> Buffer_toString_base64 bytes <> [].
Proof.
  destruct bytes as [|a [|b [|c bytes]]]; [contradiction|..];
    intros _; discriminate.
Qed.

(** ** The constant-time comparison *)

Lemma fold_lor_lxor_zero (l : list (Z * Z)) (acc : Z) :
  fold_left (fun acc xy => Z.lor acc (Z.lxor (fst xy) (snd xy))) l acc = 0
  <-> acc = 0 /\ Forall (fun xy => fst xy = snd xy) l.
Proof.
  revert acc; induction l as [|[x y] l IH]; intros acc; simpl.
  - split; [intros ->; now split | now intros [-> _]].
  - rewrite IH, Z.lor_eq_0_iff, Z.lxor_eq_0_iff. split.
    + intros [[-> ->] Hl]. split; [reflexivity | now constructor].
    + intros [-> Hl]. inversion Hl; subst. now repeat split.
Qed.

Lemma combine_diagonal (a b : list Z) :
  length a = length b ->
  Forall (fun xy => fst xy = snd xy) (combine a b) <-> a = b.
Proof.
  revert b; induction a as [|x a IH]; intros [|y b] Hlen; try discriminate.
  - split; [reflexivity | constructor].
  - simpl in *. injection Hlen as Hlen. split.
    + intros Hall. inversion Hall; subst. simpl in *. subst.
      f_equal. now apply IH.
    + intros [= -> ->]. constructor; [reflexivity | now apply IH].
Qed.

Lemma crypto_subtle_timingSafeEqual_spec (a b : list Z) :
  length a = length b ->
  exists r, crypto_subtle_timingSafeEqual a b = Returned r
            /\ (r = true <-> a = b).
Proof.
  intros Hlen. unfold crypto_subtle_timingSafeEqual.
  rewrite (proj2 (Nat.eqb_eq _ _) Hlen). eexists. split; [reflexivity|].
  rewrite Z.eqb_eq, fold_lor_lxor_zero, combine_diagonal by assumption.
  tauto.
Qed.

Lemma timingSafeEqual_spec (a b : jsstring) :
  exists r, timingSafeEqual a b = Returned r
            /\ (r = true <-> TextEncoder_encode a = TextEncoder_encode b).
Proof.
  unfold timingSafeEqual.
  destruct (Nat.eqb_spec (length (TextEncoder_encode a))
                         (length (TextEncoder_encode b))) as [Hlen|Hlen];
    cbn [negb].
  - now apply crypto_subtle_timingSafeEqual_spec.
  - exists false. split; [reflexivity|]. split; [discriminate|].
    intros Heq. rewrite Heq in Hlen. contradiction.
Qed.

Lemma timingSafeEqual_same (a b : jsstring) :
  TextEncoder_encode a = TextEncoder_encode b ->
  timingSafeEqual a b = Returned true.
Proof.
  intros Heq. destruct (timingSafeEqual_spec a b) as (r & -> & Hr).
  f_equal. now apply Hr.
Qed.

Lemma timingSafeEqual_differ (a b : jsstring) :
  TextEncoder_encode a <> TextEncoder_encode b ->
  timingSafeEqual a b = Returned false.
Proof.
  intros Hne. destruct (timingSafeEqual_spec a b) as (r & -> & Hr).
  f_equal. destruct r; [|reflexivity]. contradiction Hne. now apply Hr.
Qed.

(** C7. [timingSafeEqual] returns [true] exactly when the UTF-8 encodings of
    its two arguments are the same bytes, [false] otherwise, and so [false]
    whenever the encodings differ in byte length; it never throws. *)
Theorem timingSafeEqual_byte_identical (a b : jsstring) :
  (timingSafeEqual a b = Returned true
   <-> TextEncoder_encode a = TextEncoder_encode b)
  /\ (timingSafeEqual a b = Returned false
      <-> TextEncoder_encode a <> TextEncoder_encode b)
  /\ (length (TextEncoder_encode a) <> length (TextEncoder_encode b) ->
      timingSafeEqual a b = Returned false).
Proof.
  destruct (timingSafeEqual_spec a b) as (r & Hr & Hiff).
  rewrite Hr. repeat split.
  - intros [= ->]. now apply Hiff.
  - intros Heq. f_equal. now apply Hiff.
  - intros [= ->] Heq. apply Hiff in Heq. discriminate.
  - intros Hne. f_equal. destruct r; [|reflexivity].
    contradiction Hne. now apply Hiff.
  - intros Hlen. f_equal. destruct r; [|reflexivity].
    contradiction Hlen. now rewrite (proj1 Hiff eq_refl).
Qed.

Lemma timingSafeEqual_byte_identical_witness :
  timingSafeEqual (lit "pass") (lit "passw") = Returned false.
Proof.
  apply (timingSafeEqual_byte_identical (lit "pass") (lit "passw")).
  vm_compute. lia.
Defined.

(** The comparison is one of bytes: a lone surrogate is encoded as U+FFFD,
    so two different strings can compare equal. *)
Example timingSafeEqual_lone_surrogate :
  timingSafeEqual [0xD800] [0xFFFD] = Returned true
  /\ TextEncoder_encode [0xD800] = [0xEF; 0xBF; 0xBD].
Proof. split; reflexivity. Qed.

(** ** The handler, stage by stage *)

Section Pipeline.

Context `{IpAddress}.

Lemma fetch_stages (cloudflare : Cloudflare) (request : Request) (env : Env) :
  fetch cloudflare request env
  = authenticate request env (validate cloudflare request).
Proof. reflexivity. Qed.

(** *** The credential check *)

Lemma header_token_inv (request : Request) (encoded : jsstring) :
  header_token request = Some encoded ->
  exists authorization rest,
    headers_Authorization request = Some authorization
    /\ truthy authorization = true
    /\ split authorization (lit " ") = lit "Basic" :: encoded :: rest
    /\ truthy encoded = true.
Proof.
  unfold header_token. intros Htoken.
  destruct (headers_Authorization request) as [authorization|]; [|discriminate].
  destruct (split authorization (lit " ")) as [|scheme [|encoded' rest]]
    eqn:Hsplit; try discriminate.
  destruct (truthy authorization) eqn:Hauth; [|discriminate].
  destruct (truthy encoded') eqn:Henc; [|discriminate].
  destruct (JS.eqb scheme (lit "Basic")) eqn:Hscheme; [|discriminate].
  apply jsstring_eqb_eq in Hscheme. injection Htoken as <-. subst scheme.
  now exists authorization, rest.
Qed.

Lemma authenticate_accepts (request : Request) (env : Env)
    (next : M Response) (encoded : jsstring) (w : World) :
  header_token request = Some encoded ->
  accepts env
    (substring (decoded encoded) 0 (indexOf (decoded encoded) (lit ":")))
    (substring_from (decoded encoded)
       (indexOf (decoded encoded) (lit ":") + 1)) ->
  authenticate request env next w = next w.
Proof.
  intros Htoken [Huser Hpass].
  apply header_token_inv in Htoken
    as (authorization & rest & Hhead & Hauth & Hsplit & Henc).
  unfold authenticate. rewrite Hhead. cbn [falsy]. rewrite Hauth, Hsplit.
  cbn [negb nth_error falsy]. rewrite Henc, jsstring_eqb_refl. cbn [negb orb].
  fold (decoded encoded). unfold bind, lift.
  rewrite (timingSafeEqual_same _ _ Huser). cbn [negb].
  rewrite (timingSafeEqual_same _ _ Hpass). reflexivity.
Qed.

Lemma authenticate_rejects (request : Request) (env : Env)
    (next : M Response) (encoded : jsstring) (w : World) :
  header_token request = Some encoded ->
  ~ accepts env
      (substring (decoded encoded) 0 (indexOf (decoded encoded) (lit ":")))
      (substring_from (decoded encoded)
         (indexOf (decoded encoded) (lit ":") + 1)) ->
  authenticate request env next w = (Returned unauthorized, w).
Proof.
  intros Htoken Hno.
  apply header_token_inv in Htoken
    as (authorization & rest & Hhead & Hauth & Hsplit & Henc).
  unfold authenticate. rewrite Hhead. cbn [falsy]. rewrite Hauth, Hsplit.
  cbn [negb nth_error falsy]. rewrite Henc, jsstring_eqb_refl. cbn [negb orb].
  fold (decoded encoded). unfold bind, lift.
  destruct (timingSafeEqual_spec (BASIC_USER env)
              (substring (decoded encoded) 0
                 (indexOf (decoded encoded) (lit ":"))))
    as (userOk & -> & Huser).
  destruct userOk; cbn [negb]; [|reflexivity].
  destruct (timingSafeEqual_spec (BASIC_PASS env)
              (substring_from (decoded encoded)
                 (indexOf (decoded encoded) (lit ":") + 1)))
    as (passOk & -> & Hpass).
  destruct passOk; cbn [negb orb]; [|reflexivity].
  contradiction Hno. split; [now apply Huser | now apply Hpass].
Qed.

(** Without a header, or with an empty one, the answer is 401 with a
    challenge. *)
Lemma authenticate_no_header (request : Request) (env : Env)
    (next : M Response) (w : World) :
  falsy (headers_Authorization request) = true ->
  authenticate request env next w
  = (Returned {| body := "You need to login."; status := 401;
                 headers := challenge "my scope" |}, w).
Proof. intros Hnone. unfold authenticate. now rewrite Hnone. Qed.

(** A header that is not of the form [Basic <token>] is answered with 400. *)
Lemma authenticate_malformed (request : Request) (env : Env)
    (next : M Response) (w : World) :
  falsy (headers_Authorization request) = false ->
  header_token request = None ->
  authenticate request env next w
  = (Returned {| body := "Malformed authorization header."; status := 400;
                 headers := [] |}, w).
Proof.
  intros Hsome Htoken. unfold authenticate. rewrite Hsome.
  unfold header_token in Htoken.
  destruct (headers_Authorization request) as [authorization|];
    [|discriminate]. cbn [falsy] in Hsome. apply negb_false_iff in Hsome.
  rewrite Hsome in Htoken.
  destruct (split authorization (lit " ")) as [|scheme [|encoded rest]];
    [reflexivity|..]; cbn [nth_error falsy orb].
  - reflexivity.
  - destruct (truthy encoded); cbn [andb negb orb] in *; [|reflexivity].
    destruct (JS.eqb scheme (lit "Basic")); [discriminate|reflexivity].
Qed.

Lemma fetch_authenticated (cloudflare : Cloudflare) (request : Request)
    (env : Env) (w : World) :
  authenticated request env ->
  fetch cloudflare request env w = validate cloudflare request w.
Proof.
  intros (encoded & Htoken & Hacc). rewrite fetch_stages.
  now apply authenticate_accepts with encoded.
Qed.

(** *** The query parameters *)

Lemma validate_both (cloudflare : Cloudflare) (request : Request)
    (hostname myip : jsstring) :
  validated request hostname myip ->
  validate cloudflare request = resolve cloudflare hostname myip.
Proof.
  intros (Hh & Hht & Hm & Hmt). unfold validate.
  rewrite Hh, Hm. cbn [falsy]. now rewrite Hht, Hmt.
Qed.

Lemma validate_no_hostname (cloudflare : Cloudflare) (request : Request)
    (w : World) :
  falsy (searchParams_get request (lit "hostname")) = true ->
  validate cloudflare request w
  = (Returned {| body := "No hostname provided"; status := 400;
                 headers := [] |}, w).
Proof. intros Hnone. unfold validate. now rewrite Hnone. Qed.

Lemma validate_no_myip (cloudflare : Cloudflare) (request : Request)
    (w : World) :
  falsy (searchParams_get request (lit "hostname")) = false ->
  falsy (searchParams_get request (lit "myip")) = true ->
  validate cloudflare request w
  = (Returned {| body := "No myip provided"; status := 400;
                 headers := [] |}, w).
Proof. intros Hh Hnone. unfold validate. now rewrite Hh, Hnone. Qed.

Lemma fetch_validated (cloudflare : Cloudflare) (request : Request)
    (env : Env) (hostname myip : jsstring) (w : World) :
  authenticated request env ->
  validated request hostname myip ->
  fetch cloudflare request env w = resolve cloudflare hostname myip w.
Proof.
  intros Hauth Hvalid. rewrite fetch_authenticated by assumption.
  now rewrite (validate_both _ _ _ _ Hvalid).
Qed.

(** *** Zone resolution *)

Lemma find_first_such {X} (f : X -> bool) (P : X -> Prop) (l : list X) :
  (forall x, f x = true <-> P x) ->
  forall x, find f l = Some x <-> first_such P l x.
Proof.
  intros Hf x. induction l as [|y l IH]; simpl.
  - split; [discriminate|]. intros (pre & post & Hl & _).
    now destruct pre.
  - destruct (f y) eqn:Hy.
    + split.
      * intros [= ->]. exists [], l. repeat split; [now apply Hf | intros ? []].
      * intros ([|z pre] & post & Hl & HP & Hpre).
        -- now injection Hl as -> _.
        -- injection Hl as -> _. exfalso. apply (Hpre z); [now left|].
           now apply Hf.
    + rewrite IH. split.
      * intros (pre & post & -> & HP & Hpre). exists (y :: pre), post.
        repeat split; [assumption|]. intros z [<-|Hz]; [|now apply Hpre].
        rewrite <- Hf, Hy. discriminate.
      * intros ([|z pre] & post & Hl & HP & Hpre).
        -- injection Hl as -> _. apply Hf in HP. congruence.
        -- injection Hl as -> ->. exists pre, post.
           repeat split; [assumption|]. intros z' Hz'. apply Hpre. now right.
Qed.

Lemma find_none_iff {X} (f : X -> bool) (l : list X) :
  find f l = None <-> forall x, In x l -> f x = false.
Proof.
  split; [apply find_none|]. induction l as [|y l IH]; intros Hall; simpl.
  - reflexivity.
  - rewrite (Hall y) by now left. apply IH. intros x Hx. apply Hall. now right.
Qed.

Lemma resolve_zone (cloudflare : Cloudflare) (hostname myip : jsstring)
    (zones : list Zone) (zone : Zone) (w : World) :
  zones_list cloudflare = Returned zones ->
  find (fun z => endsWith hostname (zone_name z)) zones = Some zone ->
  resolve cloudflare hostname myip w
  = upsert cloudflare zone hostname myip (logged ZonesList w).
Proof.
  intros Hzones Hfind. unfold resolve, bind, call.
  now rewrite Hzones, Hfind.
Qed.

Lemma resolve_no_zone (cloudflare : Cloudflare) (hostname myip : jsstring)
    (zones : list Zone) (w : World) :
  zones_list cloudflare = Returned zones ->
  find (fun z => endsWith hostname (zone_name z)) zones = None ->
  resolve cloudflare hostname myip w
  = (Returned zone_not_found, logged ZonesList w).
Proof.
  intros Hzones Hfind. unfold resolve, bind, call.
  now rewrite Hzones, Hfind.
Qed.

Lemma resolve_throws (cloudflare : Cloudflare) (hostname myip : jsstring)
    (e : exn) (w : World) :
  zones_list cloudflare = Thrown e ->
  resolve cloudflare hostname myip w = (Thrown e, logged ZonesList w).
Proof.
  intros Hzones. unfold resolve, bind, call. now rewrite Hzones.
Qed.

(** *** The upsert *)

Lemma classify_none (myip : jsstring) :
  classify myip = None <->
  Address4_isValid myip = false /\ Address6_isValid myip = false.
Proof.
  unfold classify.
  destruct (Address4_isValid myip), (Address6_isValid myip); split;
    try easy; now intros [? ?].
Qed.

Lemma upsert_invalid_address (cloudflare : Cloudflare) (zone : Zone)
    (hostname myip : jsstring) (w : World) :
  classify myip = None ->
  upsert cloudflare zone hostname myip w
  = (Returned invalid_address, w).
Proof.
  intros Hnone. apply classify_none in Hnone as [H4 H6].
  unfold upsert, try_catch. now rewrite H4, H6.
Qed.

(** What [upsert] does once the address is classified, by the answers of
    the provider. *)
Lemma upsert_classified (cloudflare : Cloudflare) (zone : Zone)
    (hostname myip : jsstring) (t : RecordType) (c : jsstring) (w : World) :
  classify myip = Some (t, c) ->
  upsert cloudflare zone hostname myip w =
  let b := new_record zone hostname t c in
  let w1 := logged (RecordsList (zone_id zone)) w in
  match dns_records_list cloudflare (zone_id zone) with
  | Thrown e => (Returned server_error, reported e w1)
  | Returned records =>
      let record := find (fun r => JS.eqb (record_name r) hostname) records in
      if falsy (match record with Some r => record_id r | None => None end)
      then
        let w2 := logged (RecordsCreate (zone_id zone) b) w1 in
        match dns_records_create cloudflare (zone_id zone) b with
        | Returned _ => (Returned created, w2)
        | Thrown e => (Returned server_error, reported e w2)
        end
      else
        match record with
        | Some r =>
            let id := match record_id r with Some i => i | None => [] end in
            let w2 := logged (RecordsUpdate id (zone_id zone) b) w1 in
            match dns_records_update cloudflare id (zone_id zone) b with
            | Returned _ => (Returned updated, w2)
            | Thrown e => (Returned server_error, reported e w2)
            end
        | None => (Returned updated, w1)
        end
  end.
Proof.
  unfold classify. intros Hclass.
  destruct (Address4_isValid myip) eqn:H4;
    [|destruct (Address6_isValid myip) eqn:H6; [|discriminate]];
    injection Hclass as <- <-;
    unfold upsert, try_catch, bind, call, ret, console_error, new_record;
    rewrite H4, ?H6; cbn [correctForm];
    (destruct (dns_records_list cloudflare (zone_id zone)) as [records|e];
     [|reflexivity]);
    cbv zeta;
    (destruct (falsy _);
     [ destruct (dns_records_create _ _ _); reflexivity
     | destruct (find _ records);
       [destruct (dns_records_update _ _ _ _); reflexivity | reflexivity] ]).
Qed.

End Pipeline.

(** ** Provider failures *)

(** Whatever the provider answers, nothing thrown inside the [try] block
    leaves [upsert]. *)
Lemma upsert_returns `{IpAddress} (cloudflare : Cloudflare) (zone : Zone)
    (hostname myip : jsstring) (w : World) :
  exists r w', upsert cloudflare zone hostname myip w = (Returned r, w').
Proof.
  destruct (classify myip) as [[t c]|] eqn:Hclass.
  - rewrite (upsert_classified _ _ _ _ _ _ _ Hclass). cbv zeta.
    destruct (dns_records_list _ _); [|now eexists _, _].
    destruct (falsy _).
    + destruct (dns_records_create _ _ _); now eexists _, _.
    + destruct (find _ _); [|now eexists _, _].
      destruct (dns_records_update _ _ _ _); now eexists _, _.
  - rewrite upsert_invalid_address by assumption. now eexists _, _.
Qed.

(** A failure of the record listing is answered with the 500 response. *)
Lemma records_list_failure_caught `{IpAddress} (cloudflare : Cloudflare)
    (zone : Zone) (hostname myip : jsstring) (t : RecordType) (c : jsstring)
    (e : exn) (w : World) :
  classify myip = Some (t, c) ->
  dns_records_list cloudflare (zone_id zone) = Thrown e ->
  upsert cloudflare zone hostname myip w
  = (Returned server_error, reported e (logged (RecordsList (zone_id zone)) w)).
Proof.
  intros Hclass Hlist. rewrite (upsert_classified _ _ _ _ _ _ _ Hclass).
  cbv zeta. now rewrite Hlist.
Qed.

(** A thrown create or update is answered with the 500 response as well:
    past the record listing, [upsert] answers 200 or 500. *)
Lemma write_failure_caught `{IpAddress} (cloudflare : Cloudflare)
    (zone : Zone) (hostname myip : jsstring) (t : RecordType) (c : jsstring)
    (records : list DnsRecord) (w : World) :
  classify myip = Some (t, c) ->
  dns_records_list cloudflare (zone_id zone) = Returned records ->
  exists r w',
    upsert cloudflare zone hostname myip w = (Returned r, w')
    /\ (r = created \/ r = updated
        \/ (r = server_error /\ exists e, console w' = console w ++ [e])).
Proof.
  intros Hclass Hlist. rewrite (upsert_classified _ _ _ _ _ _ _ Hclass).
  cbv zeta. rewrite Hlist.
  destruct (falsy _).
  - destruct (dns_records_create _ _ _) as [u|e]; eexists _, _;
      (split; [reflexivity|]); [now left | right; right].
    split; [reflexivity | now exists e].
  - destruct (find _ records); [|eexists _, _; split; [reflexivity | tauto]].
    destruct (dns_records_update _ _ _ _) as [u|e]; eexists _, _;
      (split; [reflexivity|]); [tauto | right; right].
    split; [reflexivity | now exists e].
Qed.

(** C1. The zone listing of line 96 stands before the [try] block: when it
    throws, the exception leaves [fetch]; no response is built and nothing
    is logged. *)
Theorem zones_list_exception_escapes `{IpAddress} (cloudflare : Cloudflare)
    (request : Request) (env : Env) (hostname myip : jsstring) (e : exn)
    (w : World) :
  authenticated request env ->
  validated request hostname myip ->
  zones_list cloudflare = Thrown e ->
  fetch cloudflare request env w = (Thrown e, logged ZonesList w).
Proof.
  intros Hauth Hvalid Hzones.
  rewrite (fetch_validated _ _ _ _ _ _ Hauth Hvalid).
  now apply resolve_throws.
Qed.

Lemma zones_list_exception_escapes_witness :
  fetch Sample.unreachable (Sample.request "home.example.com" "203.0.113.5")
    Sample.env World_empty
  = (Thrown (Error "fetch failed"), logged ZonesList World_empty).
Proof.
  apply (zones_list_exception_escapes Sample.unreachable
           (Sample.request "home.example.com" "203.0.113.5") Sample.env
           (lit "home.example.com") (lit "203.0.113.5")).
  - exists (lit "dXNlcjpwYXNz"). repeat split.
  - repeat split.
  - reflexivity.
Defined.

(** ** Zone resolution *)

Lemma zone_find_first_such (hostname : jsstring) (zones : list Zone)
    (zone : Zone) :
  find (fun z => endsWith hostname (zone_name z)) zones = Some zone
  <-> first_such (fun z => is_suffix (zone_name z) hostname) zones zone.
Proof.
  apply find_first_such. intros z. apply endsWith_suffix.
Qed.

Lemma zone_find_none (hostname : jsstring) (zones : list Zone) :
  find (fun z => endsWith hostname (zone_name z)) zones = None
  <-> forall z, In z zones -> ~ is_suffix (zone_name z) hostname.
Proof.
  rewrite find_none_iff. split; intros Hall z Hz.
  - apply endsWith_not_suffix. now apply Hall.
  - apply endsWith_not_suffix. now apply Hall.
Qed.

(** C3. For an authenticated, validated request, the zone the handler goes
    on with is the first zone of the listing whose name is a suffix of the
    hostname, as a string; when no zone name is a suffix of the hostname the
    answer is 400 "Zone not found".  One of the two is always the case.
    With zones example.com, example.net and hostname home.example.com the
    zone is example.com. *)
Theorem zone_is_first_suffix_match `{IpAddress} (cloudflare : Cloudflare)
    (request : Request) (env : Env) (hostname myip : jsstring)
    (zones : list Zone) (w : World) :
  authenticated request env ->
  validated request hostname myip ->
  zones_list cloudflare = Returned zones ->
  (forall zone,
      first_such (fun z => is_suffix (zone_name z) hostname) zones zone ->
      fetch cloudflare request env w
      = upsert cloudflare zone hostname myip (logged ZonesList w))
  /\ ((forall z, In z zones -> ~ is_suffix (zone_name z) hostname) ->
      fetch cloudflare request env w
      = (Returned zone_not_found, logged ZonesList w))
  /\ ((exists zone,
          first_such (fun z => is_suffix (zone_name z) hostname) zones zone)
      \/ (forall z, In z zones -> ~ is_suffix (zone_name z) hostname))
  /\ first_such (fun z => is_suffix (zone_name z) (lit "home.example.com"))
       [Sample.example_com; Sample.example_net] Sample.example_com.
Proof.
  intros Hauth Hvalid Hzones.
  repeat split.
  - intros zone Hfirst. rewrite (fetch_validated _ _ _ _ _ _ Hauth Hvalid).
    apply resolve_zone with zones; [assumption|].
    now apply zone_find_first_such.
  - intros Hnone. rewrite (fetch_validated _ _ _ _ _ _ Hauth Hvalid).
    apply resolve_no_zone with zones; [assumption|].
    now apply zone_find_none.
  - destruct (find (fun z => endsWith hostname (zone_name z)) zones)
      as [zone|] eqn:Hfind.
    + left. exists zone. now apply zone_find_first_such.
    + right. now apply zone_find_none.
  - now apply zone_find_first_such.
Qed.

Lemma zone_is_first_suffix_match_witness :
  fetch (Sample.account []) (Sample.request "home.example.com" "203.0.113.5")
    Sample.env World_empty
  = upsert (Sample.account []) Sample.example_com (lit "home.example.com")
      (lit "203.0.113.5") (logged ZonesList World_empty).
Proof.
  destruct (zone_is_first_suffix_match (Sample.account [])
              (Sample.request "home.example.com" "203.0.113.5") Sample.env
              (lit "home.example.com") (lit "203.0.113.5")
              [Sample.example_com; Sample.example_net] World_empty)
    as (Hfirst & _ & _ & Hexample).
  - exists (lit "dXNlcjpwYXNz"). repeat split.
  - repeat split.
  - reflexivity.
  - exact (Hfirst Sample.example_com Hexample).
Defined.

(** No longest-suffix rule: the parent zone listed first wins. *)
Example zone_parent_listed_first :
  find (fun z => endsWith (lit "a.sub.example.com") (zone_name z))
    [Sample.example_com;
     {| zone_id := lit "z3"; zone_name := lit "sub.example.com" |}]
  = Some Sample.example_com.
Proof. reflexivity. Qed.

(** No label boundary: myexample.com ends with example.com. *)
Example zone_without_label_boundary :
  find (fun z => endsWith (lit "myexample.com") (zone_name z))
    [Sample.example_com; Sample.example_net]
  = Some Sample.example_com.
Proof. reflexivity. Qed.

(** C6. For an authenticated, validated request whose hostname ends with no
    zone name, the answer is 400 "Zone not found"; the only provider call is
    the zone listing, so no create and no update is issued. *)
Theorem no_zone_no_write `{IpAddress} (cloudflare : Cloudflare)
    (request : Request) (env : Env) (hostname myip : jsstring)
    (zones : list Zone) (w : World) :
  authenticated request env ->
  validated request hostname myip ->
  zones_list cloudflare = Returned zones ->
  (forall z, In z zones -> ~ is_suffix (zone_name z) hostname) ->
  fetch cloudflare request env w
  = (Returned {| body := "Zone not found"; status := 400; headers := [] |},
     logged ZonesList w)
  /\ filter is_write (calls (snd (fetch cloudflare request env w)))
     = filter is_write (calls w).
Proof.
  intros Hauth Hvalid Hzones Hnone.
  assert (Hfetch : fetch cloudflare request env w
                   = (Returned zone_not_found, logged ZonesList w)).
  { rewrite (fetch_validated _ _ _ _ _ _ Hauth Hvalid).
    apply resolve_no_zone with zones; [assumption|].
    now apply zone_find_none. }
  split; [exact Hfetch|].
  rewrite Hfetch. cbn [snd logged calls].
  rewrite filter_app. cbn. apply app_nil_r.
Qed.

Lemma no_zone_no_write_witness :
  fetch (Sample.account []) (Sample.request "home.example.org" "203.0.113.5")
    Sample.env World_empty
  = (Returned {| body := "Zone not found"; status := 400; headers := [] |},
     {| calls := [ZonesList]; console := [] |})
  /\ filter is_write
       (calls (snd (fetch (Sample.account [])
                      (Sample.request "home.example.org" "203.0.113.5")
                      Sample.env World_empty)))
     = [].
Proof.
  apply (no_zone_no_write (Sample.account [])
           (Sample.request "home.example.org" "203.0.113.5") Sample.env
           (lit "home.example.org") (lit "203.0.113.5")
           [Sample.example_com; Sample.example_net] World_empty).
  - exists (lit "dXNlcjpwYXNz"). repeat split.
  - repeat split.
  - reflexivity.
  - intros z Hz. apply endsWith_not_suffix.
    destruct Hz as [<-|[<-|[]]]; reflexivity.
Defined.

(** ** The order of the zone and address checks *)

(** The claim of C2 fails on the code: with a literal that is no address
    and a hostname that ends with no zone name, the answer is 400 "Zone not
    found", not 400 "Invalid IP address". *)
Lemma invalid_address_without_zone :
  let hostname := lit "home.example.org" in
  let myip := lit "not-an-address" in
  let result :=
    fetch (Sample.account []) (Sample.request "home.example.org" "not-an-address")
      Sample.env World_empty in
  Address4_isValid myip = false
  /\ Address6_isValid myip = false
  /\ (forall z, In z [Sample.example_com; Sample.example_net] ->
                ~ is_suffix (zone_name z) hostname)
  /\ fst result
     = Returned {| body := "Zone not found"; status := 400; headers := [] |}
  /\ fst result
     <> Returned {| body := "Invalid IP address"; status := 400; headers := [] |}.
Proof.
  cbv zeta. repeat split; try (vm_compute; discriminate).
  intros z Hz. apply endsWith_not_suffix.
  destruct Hz as [<-|[<-|[]]]; reflexivity.
Qed.

(** C2, amended.  For an authenticated request with both parameters, the
    zone is looked for before the address is classified: when no zone name
    is a suffix of the hostname the answer is 400 "Zone not found" whatever
    [myip] is; when a zone is found and [myip] is neither a valid IPv4 nor a
    valid IPv6 literal the answer is 400 "Invalid IP address", and the zone
    listing is the only provider call. *)
Theorem zone_checked_before_address `{IpAddress} (cloudflare : Cloudflare)
    (request : Request) (env : Env) (hostname myip : jsstring)
    (zones : list Zone) (w : World) :
  authenticated request env ->
  validated request hostname myip ->
  zones_list cloudflare = Returned zones ->
  ((forall z, In z zones -> ~ is_suffix (zone_name z) hostname) ->
   fetch cloudflare request env w
   = (Returned {| body := "Zone not found"; status := 400; headers := [] |},
      logged ZonesList w))
  /\ (forall zone,
        first_such (fun z => is_suffix (zone_name z) hostname) zones zone ->
        Address4_isValid myip = false ->
        Address6_isValid myip = false ->
        fetch cloudflare request env w
        = (Returned {| body := "Invalid IP address"; status := 400;
                       headers := [] |},
           logged ZonesList w)).
Proof.
  intros Hauth Hvalid Hzones. split.
  - intros Hnone. rewrite (fetch_validated _ _ _ _ _ _ Hauth Hvalid).
    apply resolve_no_zone with zones; [assumption|].
    now apply zone_find_none.
  - intros zone Hfirst H4 H6.
    rewrite (fetch_validated _ _ _ _ _ _ Hauth Hvalid).
    rewrite (resolve_zone _ _ _ zones zone) by
      (assumption || now apply zone_find_first_such).
    apply upsert_invalid_address. now apply classify_none.
Qed.

Lemma zone_checked_before_address_witness :
  fetch (Sample.account []) (Sample.request "home.example.com" "not-an-address")
    Sample.env World_empty
  = (Returned {| body := "Invalid IP address"; status := 400; headers := [] |},
     {| calls := [ZonesList]; console := [] |}).
Proof.
  refine (proj2 (zone_checked_before_address (Sample.account [])
                   (Sample.request "home.example.com" "not-an-address")
                   Sample.env (lit "home.example.com") (lit "not-an-address")
                   [Sample.example_com; Sample.example_net] World_empty
                   _ _ _) Sample.example_com _ _ _).
  - exists (lit "dXNlcjpwYXNz"). repeat split.
  - repeat split.
  - reflexivity.
  - apply zone_find_first_such. reflexivity.
  - reflexivity.
  - reflexivity.
Defined.

(** ** The record lookup and the choice between create and update *)

Lemma record_find_first_such (hostname : jsstring) (records : list DnsRecord)
    (record : DnsRecord) :
  find (fun r => JS.eqb (record_name r) hostname) records = Some record
  <-> first_such (fun r => record_name r = hostname) records record.
Proof.
  apply find_first_such. intros r. apply jsstring_eqb_eq.
Qed.

Lemma record_find_none (hostname : jsstring) (records : list DnsRecord) :
  find (fun r => JS.eqb (record_name r) hostname) records = None
  <-> forall r, In r records -> record_name r <> hostname.
Proof.
  rewrite find_none_iff. split; intros Hall r Hr.
  - apply jsstring_eqb_neq. now apply Hall.
  - apply jsstring_eqb_neq. now apply Hall.
Qed.

(** What [fetch] does for an authenticated, validated request once the zone
    is found, the address classified and the records listed. *)
Lemma fetch_upsert `{IpAddress} (cloudflare : Cloudflare) (request : Request)
    (env : Env) (hostname myip : jsstring) (zones : list Zone) (zone : Zone)
    (t : RecordType) (c : jsstring) (records : list DnsRecord) (w : World) :
  authenticated request env ->
  validated request hostname myip ->
  zones_list cloudflare = Returned zones ->
  first_such (fun z => is_suffix (zone_name z) hostname) zones zone ->
  classify myip = Some (t, c) ->
  dns_records_list cloudflare (zone_id zone) = Returned records ->
  fetch cloudflare request env w =
  let b := new_record zone hostname t c in
  let w1 := logged (RecordsList (zone_id zone)) (logged ZonesList w) in
  let record := find (fun r => JS.eqb (record_name r) hostname) records in
  if falsy (match record with Some r => record_id r | None => None end)
  then
    let w2 := logged (RecordsCreate (zone_id zone) b) w1 in
    match dns_records_create cloudflare (zone_id zone) b with
    | Returned _ => (Returned created, w2)
    | Thrown e => (Returned server_error, reported e w2)
    end
  else
    match record with
    | Some r =>
        let id := match record_id r with Some i => i | None => [] end in
        let w2 := logged (RecordsUpdate id (zone_id zone) b) w1 in
        match dns_records_update cloudflare id (zone_id zone) b with
        | Returned _ => (Returned updated, w2)
        | Thrown e => (Returned server_error, reported e w2)
        end
    | None => (Returned updated, w1)
    end.
Proof.
  intros Hauth Hvalid Hzones Hfirst Hclass Hlist.
  rewrite (fetch_validated _ _ _ _ _ _ Hauth Hvalid).
  rewrite (resolve_zone _ _ _ zones zone) by
    (assumption || now apply zone_find_first_such).
  rewrite (upsert_classified _ _ _ _ _ _ _ Hclass). cbv zeta.
  now rewrite Hlist.
Qed.

(** The claim of C4 fails on the code: a listed record has the name of the
    hostname, but it has no [id], and the handler issues a create, not an
    update. *)
Lemma named_record_lacking_id_counterexample :
  let records := [Sample.home_record None] in
  let result :=
    fetch (Sample.account records)
      (Sample.request "home.example.com" "203.0.113.5") Sample.env World_empty in
  first_such (fun r => record_name r = lit "home.example.com") records
    (Sample.home_record None)
  /\ result
     = (Returned {| body := "DNS record created successfully"; status := 200;
                    headers := [] |},
        {| calls :=
             [ZonesList; RecordsList (lit "z1");
              RecordsCreate (lit "z1")
                {| content := lit "203.0.113.5"; name := lit "home";
                   ttl := 300; proxied := false; type := A |}];
           console := [] |})
  /\ fst result
     <> Returned {| body := "DNS record updated successfully"; status := 200;
                    headers := [] |}
  /\ forall id z b, ~ In (RecordsUpdate id z b) (calls (snd result)).
Proof.
  cbv zeta. repeat split.
  - apply record_find_first_such. reflexivity.
  - vm_compute. discriminate.
  - vm_compute. intros id z b [Hc|[Hc|[Hc|[]]]]; discriminate.
Qed.

(** C4, amended.  For the zone found and a classified address, the record
    the decision rests on is the first listed record whose name equals the
    hostname, whatever its type.  When no listed record has that name, a
    create call is issued and, the call succeeding, the answer is 200 "DNS
    record created successfully".  When there is one and its id is a
    non-empty string, an update call with that id is issued and, the call
    succeeding, the answer is 200 "DNS record updated successfully". *)
Theorem record_matched_by_name `{IpAddress} (cloudflare : Cloudflare)
    (request : Request) (env : Env) (hostname myip : jsstring)
    (zones : list Zone) (zone : Zone) (t : RecordType) (c : jsstring)
    (records : list DnsRecord) (w : World) :
  authenticated request env ->
  validated request hostname myip ->
  zones_list cloudflare = Returned zones ->
  first_such (fun z => is_suffix (zone_name z) hostname) zones zone ->
  classify myip = Some (t, c) ->
  dns_records_list cloudflare (zone_id zone) = Returned records ->
  let b := new_record zone hostname t c in
  let w1 := logged (RecordsList (zone_id zone)) (logged ZonesList w) in
  ((forall r, In r records -> record_name r <> hostname) ->
   dns_records_create cloudflare (zone_id zone) b = Returned tt ->
   fetch cloudflare request env w
   = (Returned {| body := "DNS record created successfully"; status := 200;
                  headers := [] |},
      logged (RecordsCreate (zone_id zone) b) w1))
  /\ (forall record id,
        first_such (fun r => record_name r = hostname) records record ->
        record_id record = Some id ->
        id <> [] ->
        dns_records_update cloudflare id (zone_id zone) b = Returned tt ->
        fetch cloudflare request env w
        = (Returned {| body := "DNS record updated successfully";
                       status := 200; headers := [] |},
           logged (RecordsUpdate id (zone_id zone) b) w1)).
Proof.
  intros Hauth Hvalid Hzones Hfirst Hclass Hlist b w1.
  pose proof (fetch_upsert _ _ _ _ _ _ _ _ _ _ w
                Hauth Hvalid Hzones Hfirst Hclass Hlist) as Hfetch.
  cbv zeta in Hfetch. fold b in Hfetch. fold w1 in Hfetch. split.
  - intros Hnone Hcreate. apply record_find_none in Hnone.
    rewrite Hnone in Hfetch. cbn [falsy] in Hfetch.
    now rewrite Hcreate in Hfetch.
  - intros record id Hrecord Hid Hne Hupdate.
    apply record_find_first_such in Hrecord.
    rewrite Hrecord, Hid in Hfetch. cbn [falsy] in Hfetch.
    destruct id as [|x id]; [contradiction|]. cbn [truthy negb] in Hfetch.
    now rewrite Hupdate in Hfetch.
Qed.

Lemma record_matched_by_name_witness :
  fetch (Sample.account [Sample.home_record (Some (lit "rec1"))])
    (Sample.request "home.example.com" "203.0.113.5") Sample.env World_empty
  = (Returned {| body := "DNS record updated successfully"; status := 200;
                 headers := [] |},
     {| calls :=
          [ZonesList; RecordsList (lit "z1");
           RecordsUpdate (lit "rec1") (lit "z1")
             {| content := lit "203.0.113.5"; name := lit "home";
                ttl := 300; proxied := false; type := A |}];
        console := [] |}).
Proof.
  refine (proj2 (record_matched_by_name
                   (Sample.account [Sample.home_record (Some (lit "rec1"))])
                   (Sample.request "home.example.com" "203.0.113.5")
                   Sample.env (lit "home.example.com") (lit "203.0.113.5")
                   [Sample.example_com; Sample.example_net] Sample.example_com
                   A (lit "203.0.113.5")
                   [Sample.home_record (Some (lit "rec1"))] World_empty
                   _ _ _ _ _ _)
            (Sample.home_record (Some (lit "rec1"))) (lit "rec1") _ _ _ _).
  - exists (lit "dXNlcjpwYXNz"). repeat split.
  - repeat split.
  - reflexivity.
  - apply zone_find_first_such. reflexivity.
  - reflexivity.
  - reflexivity.
  - apply record_find_first_such. reflexivity.
  - reflexivity.
  - discriminate.
  - reflexivity.
Defined.

(** The type of the listed record plays no part: an AAAA request updates the
    A record of the same name. *)
Example record_of_other_family_is_updated :
  fetch (Sample.account [Sample.home_record (Some (lit "rec1"))])
    (Sample.request "home.example.com" "2001:DB8::1") Sample.env World_empty
  = (Returned updated,
     {| calls :=
          [ZonesList; RecordsList (lit "z1");
           RecordsUpdate (lit "rec1") (lit "z1")
             {| content := lit "2001:db8::1"; name := lit "home";
                ttl := 300; proxied := false; type := AAAA |}];
        console := [] |}).
Proof. reflexivity. Qed.

(** C10. When the first listed record with the name of the hostname has no
    id, or the empty string for id, the handler takes the create branch: a
    create call is issued, no update call, and, the call succeeding, the
    answer is 200 "DNS record created successfully". *)
Theorem record_without_id_is_created `{IpAddress} (cloudflare : Cloudflare)
    (request : Request) (env : Env) (hostname myip : jsstring)
    (zones : list Zone) (zone : Zone) (t : RecordType) (c : jsstring)
    (records : list DnsRecord) (record : DnsRecord) (w : World) :
  authenticated request env ->
  validated request hostname myip ->
  zones_list cloudflare = Returned zones ->
  first_such (fun z => is_suffix (zone_name z) hostname) zones zone ->
  classify myip = Some (t, c) ->
  dns_records_list cloudflare (zone_id zone) = Returned records ->
  first_such (fun r => record_name r = hostname) records record ->
  record_id record = None \/ record_id record = Some [] ->
  let b := new_record zone hostname t c in
  let w1 := logged (RecordsList (zone_id zone)) (logged ZonesList w) in
  calls (snd (fetch cloudflare request env w))
  = calls w ++ [ZonesList; RecordsList (zone_id zone);
                RecordsCreate (zone_id zone) b]
  /\ (dns_records_create cloudflare (zone_id zone) b = Returned tt ->
      fetch cloudflare request env w
      = (Returned {| body := "DNS record created successfully"; status := 200;
                     headers := [] |},
         logged (RecordsCreate (zone_id zone) b) w1)).
Proof.
  intros Hauth Hvalid Hzones Hfirst Hclass Hlist Hrecord Hid b w1.
  pose proof (fetch_upsert _ _ _ _ _ _ _ _ _ _ w
                Hauth Hvalid Hzones Hfirst Hclass Hlist) as Hfetch.
  cbv zeta in Hfetch. fold b in Hfetch. fold w1 in Hfetch.
  apply record_find_first_such in Hrecord. rewrite Hrecord in Hfetch.
  assert (Hfalsy : falsy (record_id record) = true)
    by (destruct Hid as [-> | ->]; reflexivity).
  rewrite Hfalsy in Hfetch. split.
  - rewrite Hfetch. subst w1.
    destruct (dns_records_create cloudflare (zone_id zone) b);
      cbn [snd reported logged calls]; now rewrite <- !app_assoc.
  - intros Hcreate. now rewrite Hcreate in Hfetch.
Qed.

Lemma record_without_id_is_created_witness :
  calls (snd (fetch (Sample.account [Sample.home_record (Some [])])
                (Sample.request "home.example.com" "203.0.113.5")
                Sample.env World_empty))
  = [ZonesList; RecordsList (lit "z1");
     RecordsCreate (lit "z1")
       {| content := lit "203.0.113.5"; name := lit "home";
          ttl := 300; proxied := false; type := A |}].
Proof.
  refine (proj1 (record_without_id_is_created
                   (Sample.account [Sample.home_record (Some [])])
                   (Sample.request "home.example.com" "203.0.113.5")
                   Sample.env (lit "home.example.com") (lit "203.0.113.5")
                   [Sample.example_com; Sample.example_net] Sample.example_com
                   A (lit "203.0.113.5")
                   [Sample.home_record (Some [])] (Sample.home_record (Some []))
                   World_empty _ _ _ _ _ _ _ _)).
  - exists (lit "dXNlcjpwYXNz"). repeat split.
  - repeat split.
  - reflexivity.
  - apply zone_find_first_such. reflexivity.
  - reflexivity.
  - reflexivity.
  - apply record_find_first_such. reflexivity.
  - now right.
Defined.

(** ** The record body *)

Lemma classify_v4 `{IpAddress} (myip : jsstring) :
  Address4_isValid myip = true ->
  classify myip = Some (A, Address4_correctForm myip).
Proof. intros H4. unfold classify. now rewrite H4. Qed.

Lemma classify_v6 `{IpAddress} (myip : jsstring) :
  Address4_isValid myip = false ->
  Address6_isValid myip = true ->
  classify myip = Some (AAAA, Address6_correctForm myip).
Proof. intros H4 H6. unfold classify. now rewrite H4, H6. Qed.

Lemma new_record_fixed (zone : Zone) (hostname : jsstring) (t : RecordType)
    (c : jsstring) :
  ttl (new_record zone hostname t c) = 300
  /\ proxied (new_record zone hostname t c) = false
  /\ type (new_record zone hostname t c) = t
  /\ content (new_record zone hostname t c) = c.
Proof. now repeat split. Qed.

Lemma new_record_apex (zone : Zone) (t : RecordType) (c : jsstring) :
  name (new_record zone (zone_name zone) t c) = lit "@".
Proof. unfold new_record. cbn [name]. now rewrite jsstring_eqb_refl. Qed.

Lemma prefix_of_shorter (a l x y : jsstring) :
  l ++ x = a ++ y -> (length a < length l)%nat ->
  exists c l', l = a ++ c :: l'.
Proof.
  revert l; induction a as [|d a IH]; intros l Heq Hlen.
  - destruct l as [|c l']; [simpl in Hlen; lia|]. now exists c, l'.
  - destruct l as [|c l']; [simpl in Hlen; lia|].
    simpl in Heq, Hlen. injection Heq as -> Heq.
    destruct (IH l' Heq) as (c' & l'' & ->); [lia|]. now exists c', l''.
Qed.

(** For a hostname made of one label before the zone name, [name] is that
    label. *)
Lemma new_record_label (zone : Zone) (label : jsstring) (t : RecordType)
    (c : jsstring) :
  ~ In 46 label ->
  name (new_record zone (label ++ lit "." ++ zone_name zone) t c) = label.
Proof.
  intros Hdot. unfold new_record. cbn [name].
  destruct (JS.eqb (label ++ lit "." ++ zone_name zone) (zone_name zone))
    eqn:Heq.
  - apply jsstring_eqb_eq in Heq. apply (f_equal (@length Z)) in Heq.
    rewrite !length_app in Heq. simpl in Heq. lia.
  - replace (label ++ lit "." ++ zone_name zone)
      with (label ++ (lit "." ++ zone_name zone) ++ []) at 1
      by now rewrite app_nil_r.
    apply split_head; [discriminate|].
    intros a b Hab.
    destruct (Nat.le_gt_cases (length label) (length a)) as [Hle|Hlt];
      [assumption|].
    destruct (prefix_of_shorter a label _ _ Hab Hlt) as (x & l' & ->).
    rewrite <- app_assoc in Hab. apply app_inv_head in Hab.
    injection Hab as -> _. contradiction Hdot.
    apply in_or_app. right. now left.
Qed.

(** C5. The name of the record body is the first piece of the hostname
    split at ".<zone name>", which is not the hostname without its trailing
    ".<zone name>" when that text occurs earlier in the hostname: for
    a.example.com.example.com in the zone example.com the body sent has
    the name a, not a.example.com. *)
Theorem record_name_is_first_piece :
  lit "a.example.com.example.com"
  = lit "a.example.com" ++ lit "." ++ zone_name Sample.example_com
  /\ fetch (Sample.account [])
       (Sample.request "a.example.com.example.com" "203.0.113.5")
       Sample.env World_empty
     = (Returned created,
        {| calls :=
             [ZonesList; RecordsList (lit "z1");
              RecordsCreate (lit "z1")
                {| content := lit "203.0.113.5"; name := lit "a";
                   ttl := 300; proxied := false; type := A |}];
           console := [] |})
  /\ lit "a" <> lit "a.example.com".
Proof. repeat split. discriminate. Qed.

(** ** The credentials *)

Lemma header_token_basic (request : Request) (token : jsstring) :
  headers_Authorization request = Some (lit "Basic " ++ token) ->
  token <> [] -> ~ In 32 token ->
  header_token request = Some token.
Proof.
  intros Hhead Hne Hspace. unfold header_token. rewrite Hhead.
  change (lit "Basic " ++ token) with (lit "Basic" ++ 32 :: token).
  change (lit " ") with [32].
  rewrite split_two;
    [|intros [Hc|[Hc|[Hc|[Hc|[Hc|[]]]]]]; discriminate | assumption].
  destruct token as [|c token]; [contradiction|]. reflexivity.
Qed.

Lemma credentials_with_colon (u p : jsstring) :
  ~ In colon u ->
  let credentials := u ++ colon :: p in
  let index := indexOf credentials (lit ":") in
  substring credentials 0 index = u
  /\ substring_from credentials (index + 1) = p.
Proof.
  intros Hu. cbv zeta. change (lit ":") with [colon].
  rewrite indexOf_first by assumption. split.
  - apply substring_prefix.
  - replace (Z.of_nat (length u) + 1) with (Z.of_nat (length (u ++ [colon])))
      by (rewrite length_app; simpl; lia).
    replace (u ++ colon :: p) with ((u ++ [colon]) ++ p)
      by now rewrite <- app_assoc.
    apply substring_from_suffix.
Qed.

Lemma credentials_without_colon (credentials : jsstring) :
  ~ In colon credentials ->
  let index := indexOf credentials (lit ":") in
  substring credentials 0 index = []
  /\ substring_from credentials (index + 1) = credentials.
Proof.
  intros Hc. cbv zeta. change (lit ":") with [colon].
  rewrite indexOf_absent by assumption. split.
  - apply substring_to_minus_one.
  - apply substring_from_zero.
Qed.

Lemma accepts_wellformed (env : Env) (u p : jsstring) :
  isWellFormed (BASIC_USER env) = true ->
  isWellFormed (BASIC_PASS env) = true ->
  isWellFormed u = true -> isWellFormed p = true ->
  accepts env u p <-> u = BASIC_USER env /\ p = BASIC_PASS env.
Proof.
  intros Hbu Hbp Hu Hp. unfold accepts. split.
  - intros [Huser Hpass]. split; symmetry; now apply encode_injective.
  - now intros [-> ->].
Qed.

(** Past the credential check the handler never reports a malformed
    header. *)
Lemma validate_not_malformed `{IpAddress} (cloudflare : Cloudflare)
    (request : Request) (w w' : World) (r : Response) :
  validate cloudflare request w = (Returned r, w') ->
  body r <> "Malformed authorization header.".
Proof.
  unfold validate.
  destruct (falsy (searchParams_get request (lit "hostname")));
    [intros [= <- _]; discriminate|].
  destruct (falsy (searchParams_get request (lit "myip")));
    [intros [= <- _]; discriminate|].
  unfold resolve, bind, call.
  destruct (zones_list cloudflare) as [zones|e]; [|discriminate].
  destruct (find _ zones) as [zone|]; [|intros [= <- _]; discriminate].
  match goal with
  | |- upsert _ _ ?h ?m _ = _ -> _ =>
      destruct (classify m) as [[t c]|] eqn:Hclass;
      [rewrite (upsert_classified _ _ h m _ _ _ Hclass)
      |rewrite upsert_invalid_address by assumption;
       intros [= <- _]; discriminate]
  end.
  cbv zeta.
  destruct (dns_records_list _ _); [|intros [= <- _]; discriminate].
  destruct (falsy _).
  - destruct (dns_records_create _ _ _); intros [= <- _]; discriminate.
  - destruct (find _ _); [|intros [= <- _]; discriminate].
    destruct (dns_records_update _ _ _ _); intros [= <- _]; discriminate.
Qed.

(** C8. When the decoded credential string contains a colon, the handler
    compares what stands before its first colon with the expected username
    and all that follows that colon with the expected password.  So, for a
    username [u] without colon and a password [p], both well-formed, and
    well-formed expected credentials, the header

      Basic base64(u + ":" + p)

    authenticates exactly when [u] is the expected username and [p] the
    expected password; otherwise the answer is 401. *)
Theorem credentials_split_at_first_colon `{IpAddress}
    (cloudflare : Cloudflare) (request : Request) (env : Env) (w : World) :
  (forall encoded,
      header_token request = Some encoded ->
      In colon (decoded encoded) ->
      exists u p,
        decoded encoded = u ++ colon :: p /\ ~ In colon u
        /\ (accepts env u p ->
            fetch cloudflare request env w = validate cloudflare request w)
        /\ (~ accepts env u p ->
            fetch cloudflare request env w
            = (Returned {| body := "You need to login."; status := 401;
                           headers := challenge "Cloudflare DDNS Worker" |},
               w)))
  /\ (forall u p,
        isWellFormed u = true -> isWellFormed p = true ->
        isWellFormed (BASIC_USER env) = true ->
        isWellFormed (BASIC_PASS env) = true ->
        ~ In colon u ->
        headers_Authorization request
        = Some (lit "Basic "
                ++ Buffer_toString_base64
                     (TextEncoder_encode (u ++ colon :: p))) ->
        (authenticated request env
         <-> u = BASIC_USER env /\ p = BASIC_PASS env)
        /\ (u = BASIC_USER env /\ p = BASIC_PASS env ->
            fetch cloudflare request env w = validate cloudflare request w)
        /\ (~ (u = BASIC_USER env /\ p = BASIC_PASS env) ->
            fetch cloudflare request env w
            = (Returned {| body := "You need to login."; status := 401;
                           headers := challenge "Cloudflare DDNS Worker" |},
               w))).
Proof.
  assert (Hsplit : forall encoded u p,
    header_token request = Some encoded ->
    decoded encoded = u ++ colon :: p -> ~ In colon u ->
    (accepts env u p ->
     fetch cloudflare request env w = validate cloudflare request w)
    /\ (~ accepts env u p ->
        fetch cloudflare request env w = (Returned unauthorized, w))).
  { intros encoded u p Htoken Hdec Hu.
    destruct (credentials_with_colon u p Hu) as [Huser Hpass].
    cbv zeta in Huser, Hpass. rewrite <- Hdec in Huser, Hpass.
    rewrite fetch_stages. split; intros Hacc.
    - apply authenticate_accepts with encoded; [assumption|].
      now rewrite Huser, Hpass.
    - apply authenticate_rejects with encoded; [assumption|].
      now rewrite Huser, Hpass. }
  split.
  - intros encoded Htoken Hcolon.
    destruct (first_occurrence colon _ Hcolon) as (u & p & Hdec & Hu).
    exists u, p. split; [assumption|]. split; [assumption|].
    now apply Hsplit with encoded.
  - intros u p Hwu Hwp Hbu Hbp Hu Hhead.
    assert (Hwf : isWellFormed (u ++ colon :: p) = true).
    { apply isWellFormed_app; [assumption|].
      change (colon :: p) with ([colon] ++ p). now apply isWellFormed_app. }
    set (token := Buffer_toString_base64
                    (TextEncoder_encode (u ++ colon :: p))) in *.
    assert (Htoken : header_token request = Some token).
    { apply header_token_basic; [assumption| |].
      - apply base64_nonempty. intros Hnil.
        apply (proj1 (encode_empty _)) in Hnil.
        apply app_eq_nil in Hnil as [_ Hnil]. discriminate.
      - apply base64_no_space. now apply encode_bytes. }
    assert (Hdec : decoded token = u ++ colon :: p).
    { unfold decoded, token. rewrite base64_roundtrip by now apply encode_bytes.
      now apply toString_encode. }
    destruct (Hsplit token u p Htoken Hdec Hu) as [Hyes Hno].
    pose proof (accepts_wellformed env u p Hbu Hbp Hwu Hwp) as Hacc.
    split; [|split].
    + rewrite <- Hacc. unfold authenticated. split.
      * intros (encoded & Htoken' & Haccepts).
        rewrite Htoken in Htoken'. injection Htoken' as <-.
        cbv zeta in Haccepts. rewrite Hdec in Haccepts.
        destruct (credentials_with_colon u p Hu) as [Huser Hpass].
        cbv zeta in Huser, Hpass. now rewrite Huser, Hpass in Haccepts.
      * intros Haccepts. exists token. split; [assumption|].
        cbv zeta. rewrite Hdec.
        destruct (credentials_with_colon u p Hu) as [Huser Hpass].
        cbv zeta in Huser, Hpass. now rewrite Huser, Hpass.
    + intros Heq. apply Hyes. now apply Hacc.
    + intros Hne. apply Hno. now rewrite Hacc.
Qed.

Lemma credentials_split_at_first_colon_witness :
  authenticated
    {| headers_Authorization :=
         Some (lit "Basic "
               ++ Buffer_toString_base64
                    (TextEncoder_encode (lit "user" ++ colon :: lit "pa:ss")));
       searchParams := [] |}
    {| CF_API_TOKEN := lit "token";
       BASIC_USER := lit "user";
       BASIC_PASS := lit "pa:ss" |}.
Proof.
  refine (proj2 (proj1 (proj2 (credentials_split_at_first_colon
                                 (Sample.account []) _ _ World_empty)
                          (lit "user") (lit "pa:ss") _ _ _ _ _ _)) _).
  - reflexivity.
  - reflexivity.
  - reflexivity.
  - reflexivity.
  - intros [Hc|[Hc|[Hc|[Hc|[]]]]]; discriminate.
  - reflexivity.
  - split; reflexivity.
Defined.

(** C9. When the decoded credential string contains no colon the header is
    not reported as malformed: the username compared is the empty string
    and the password compared is the whole decoded string.  With a
    well-formed expected password, the request authenticates exactly when
    the expected username is empty and the expected password is the decoded
    string; otherwise the answer is 401 "You need to login.". *)
Theorem credentials_with_no_colon `{IpAddress} (cloudflare : Cloudflare)
    (request : Request) (env : Env) (encoded : jsstring) (w : World) :
  header_token request = Some encoded ->
  ~ In colon (decoded encoded) ->
  isWellFormed (BASIC_PASS env) = true ->
  (authenticated request env
   <-> BASIC_USER env = [] /\ BASIC_PASS env = decoded encoded)
  /\ (BASIC_USER env = [] /\ BASIC_PASS env = decoded encoded ->
      fetch cloudflare request env w = validate cloudflare request w)
  /\ (~ (BASIC_USER env = [] /\ BASIC_PASS env = decoded encoded) ->
      fetch cloudflare request env w
      = (Returned {| body := "You need to login."; status := 401;
                     headers := challenge "Cloudflare DDNS Worker" |},
         w))
  /\ (forall r w',
        fetch cloudflare request env w = (Returned r, w') ->
        body r <> "Malformed authorization header.").
Proof.
  intros Htoken Hcolon Hbp.
  destruct (credentials_without_colon _ Hcolon) as [Huser Hpass].
  cbv zeta in Huser, Hpass.
  assert (Hacc : accepts env [] (decoded encoded)
                 <-> BASIC_USER env = [] /\ BASIC_PASS env = decoded encoded).
  { unfold accepts. split.
    - intros [Hu Hp]. split.
      + now apply (proj1 (encode_empty _)).
      + apply encode_injective; [assumption | apply toString_wellformed
                                | assumption].
    - now intros [-> ->]. }
  assert (Hyes : accepts env [] (decoded encoded) ->
                 fetch cloudflare request env w = validate cloudflare request w).
  { intros Haccepts. rewrite fetch_stages.
    apply authenticate_accepts with encoded; [assumption|].
    now rewrite Huser, Hpass. }
  assert (Hno : ~ accepts env [] (decoded encoded) ->
                fetch cloudflare request env w = (Returned unauthorized, w)).
  { intros Haccepts. rewrite fetch_stages.
    apply authenticate_rejects with encoded; [assumption|].
    now rewrite Huser, Hpass. }
  split; [|split; [|split]].
  - rewrite <- Hacc. unfold authenticated. split.
    + intros (encoded' & Htoken' & Haccepts).
      rewrite Htoken in Htoken'. injection Htoken' as <-.
      cbv zeta in Haccepts. now rewrite Huser, Hpass in Haccepts.
    + intros Haccepts. exists encoded. split; [assumption|].
      cbv zeta. now rewrite Huser, Hpass.
  - intros Heq. apply Hyes. now apply Hacc.
  - intros Hne. apply Hno. now rewrite Hacc.
  - intros r w' Hfetch.
    destruct (list_eq_dec Z.eq_dec (BASIC_USER env) []) as [Hu|Hu];
      [destruct (list_eq_dec Z.eq_dec (BASIC_PASS env) (decoded encoded))
         as [Hp|Hp]|].
    + rewrite Hyes in Hfetch by (apply Hacc; now split).
      now apply validate_not_malformed in Hfetch.
    + rewrite Hno in Hfetch by (rewrite Hacc; now intros [_ ?]).
      injection Hfetch as <- _. discriminate.
    + rewrite Hno in Hfetch by (rewrite Hacc; now intros [? _]).
      injection Hfetch as <- _. discriminate.
Qed.

Lemma credentials_with_no_colon_witness :
  authenticated
    {| headers_Authorization := Some (lit "Basic c2VjcmV0");
       searchParams := [] |}
    {| CF_API_TOKEN := lit "token";
       BASIC_USER := [];
       BASIC_PASS := lit "secret" |}.
Proof.
  refine (proj2 (proj1 (credentials_with_no_colon (Sample.account []) _ _
                          (lit "c2VjcmV0") World_empty _ _ _)) _).
  - reflexivity.
  - intros [Hc|[Hc|[Hc|[Hc|[Hc|[Hc|[]]]]]]]; discriminate.
  - reflexivity.
  - split; reflexivity.
Defined.

(** * The handler as a whole *)

Lemma accepts_dec (env : Env) (user pass : jsstring) :
  {accepts env user pass} + {~ accepts env user pass}.
Proof.
  unfold accepts.
  destruct (list_eq_dec Z.eq_dec (TextEncoder_encode (BASIC_USER env))
              (TextEncoder_encode user)) as [Hu|Hu];
    [|right; now intros [? _]].
  destruct (list_eq_dec Z.eq_dec (TextEncoder_encode (BASIC_PASS env))
              (TextEncoder_encode pass)) as [Hp|Hp];
    [left; now split | right; now intros [_ ?]].
Qed.

Lemma falsy_false (x : option jsstring) :
  falsy x = false -> exists s, x = Some s /\ truthy s = true.
Proof.
  destruct x as [s|]; [|discriminate]. cbn [falsy]. intros Hs.
  exists s. split; [reflexivity | now apply negb_false_iff].
Qed.

(** Every request ends in one of the ways of [handled]. *)
Lemma fetch_handled `{IpAddress} (cloudflare : Cloudflare) (request : Request)
    (env : Env) (w : World) :
  handled cloudflare request env w (fetch cloudflare request env w).
Proof.
  rewrite fetch_stages.
  destruct (falsy (headers_Authorization request)) eqn:Hhead.
  { rewrite authenticate_no_header by assumption.
    now apply handled_no_header. }
  destruct (header_token request) as [encoded|] eqn:Htoken.
  2:{ rewrite authenticate_malformed by assumption.
      now apply handled_malformed. }
  destruct (accepts_dec env
              (substring (decoded encoded) 0
                 (indexOf (decoded encoded) (lit ":")))
              (substring_from (decoded encoded)
                 (indexOf (decoded encoded) (lit ":") + 1))) as [Hacc|Hacc].
  2:{ rewrite (authenticate_rejects _ _ _ encoded) by assumption.
      apply handled_rejected with encoded; [assumption|].
      intros (encoded' & Htoken' & Hacc').
      rewrite Htoken in Htoken'. injection Htoken' as <-. contradiction. }
  assert (Hauth : authenticated request env) by now exists encoded.
  rewrite (authenticate_accepts _ _ _ encoded) by assumption.
  destruct (falsy (searchParams_get request (lit "hostname"))) eqn:Hh.
  { rewrite validate_no_hostname by assumption.
    now apply handled_no_hostname. }
  destruct (falsy (searchParams_get request (lit "myip"))) eqn:Hm.
  { rewrite validate_no_myip by assumption. now apply handled_no_myip. }
  destruct (falsy_false _ Hh) as (hostname & Hhost & Hhostname).
  destruct (falsy_false _ Hm) as (myip & Hip & Hmyip).
  assert (Hvalid : validated request hostname myip) by now repeat split.
  rewrite (validate_both _ _ _ _ Hvalid).
  destruct (zones_list cloudflare) as [zones|e] eqn:Hzones.
  2:{ rewrite (resolve_throws _ _ _ e) by assumption.
      now apply handled_zones_failed with hostname myip. }
  destruct (find (fun z => endsWith hostname (zone_name z)) zones)
    as [zone|] eqn:Hzone.
  2:{ rewrite (resolve_no_zone _ _ _ zones) by assumption.
      apply handled_no_zone with hostname myip zones; try assumption.
      now apply zone_find_none. }
  rewrite (resolve_zone _ _ _ zones zone) by assumption.
  apply zone_find_first_such in Hzone.
  destruct (classify myip) as [[t c]|] eqn:Hclass.
  2:{ rewrite upsert_invalid_address by assumption.
      now apply handled_bad_address with hostname myip zones zone. }
  assert (Hres : resolved cloudflare request env hostname myip zone t c).
  { repeat split; try assumption. now exists zones. }
  rewrite (upsert_classified _ _ _ _ _ _ _ Hclass). cbv zeta.
  destruct (dns_records_list cloudflare (zone_id zone)) as [records|e]
    eqn:Hlist.
  2:{ now apply handled_records_failed with hostname myip t c. }
  destruct (find (fun r => JS.eqb (record_name r) hostname) records)
    as [record|] eqn:Hrecord.
  - apply record_find_first_such in Hrecord.
    destruct (record_id record) as [[|x id]|] eqn:Hid; cbn [falsy truthy negb].
    + assert (Hnone : nothing_to_update hostname records)
        by (right; exists record; split; [assumption | now right]).
      destruct (dns_records_create _ _ _) as [[]|e] eqn:Hcreate.
      * now apply handled_created with myip records.
      * now apply handled_create_failed with myip records.
    + destruct (dns_records_update _ _ _ _) as [[]|e] eqn:Hupdate.
      * now apply handled_updated with myip records record.
      * now apply handled_update_failed with myip records record.
    + assert (Hnone : nothing_to_update hostname records)
        by (right; exists record; split; [assumption | now left]).
      destruct (dns_records_create _ _ _) as [[]|e] eqn:Hcreate.
      * now apply handled_created with myip records.
      * now apply handled_create_failed with myip records.
  - assert (Hnone : nothing_to_update hostname records)
      by (left; now apply record_find_none).
    cbn [falsy].
    destruct (dns_records_create _ _ _) as [[]|e] eqn:Hcreate.
    + now apply handled_created with myip records.
    + now apply handled_create_failed with myip records.
Qed.

Lemma validated_unique (request : Request) (h m h' m' : jsstring) :
  validated request h m -> validated request h' m' -> h = h' /\ m = m'.
Proof.
  intros (Hh & _ & Hm & _) (Hh' & _ & Hm' & _).
  rewrite Hh in Hh'. rewrite Hm in Hm'. split; congruence.
Qed.

Lemma resolved_unique `{IpAddress} (cloudflare : Cloudflare)
    (request : Request) (env : Env) (h m h' m' : jsstring) (z z' : Zone)
    (t t' : RecordType) (c c' : jsstring) :
  resolved cloudflare request env h m z t c ->
  resolved cloudflare request env h' m' z' t' c' ->
  h = h' /\ m = m' /\ z = z' /\ t = t' /\ c = c'.
Proof.
  intros (_ & Hv & (zones & Hz & Hfirst) & Hc)
         (_ & Hv' & (zones' & Hz' & Hfirst') & Hc').
  destruct (validated_unique _ _ _ _ _ Hv Hv') as [<- <-].
  rewrite Hz in Hz'. injection Hz' as <-.
  apply zone_find_first_such in Hfirst, Hfirst'.
  rewrite Hfirst in Hfirst'. rewrite Hc in Hc'.
  repeat split; congruence.
Qed.

(** The provider calls a request adds to the log. *)
Lemma fetch_calls `{IpAddress} (cloudflare : Cloudflare) (request : Request)
    (env : Env) (w : World) :
  exists new,
    calls (snd (fetch cloudflare request env w)) = calls w ++ new
    /\ (new = [] \/ new = [ZonesList]
        \/ exists h m z t c,
             resolved cloudflare request env h m z t c
             /\ (new = [ZonesList; RecordsList (zone_id z)]
                 \/ new = [ZonesList; RecordsList (zone_id z);
                           RecordsCreate (zone_id z) (new_record z h t c)]
                 \/ exists records record id,
                      dns_records_list cloudflare (zone_id z)
                      = Returned records
                      /\ first_such (fun r => record_name r = h)
                           records record
                      /\ record_id record = Some id
                      /\ id <> []
                      /\ new = [ZonesList; RecordsList (zone_id z);
                                RecordsUpdate id (zone_id z)
                                  (new_record z h t c)])).
Proof.
  destruct (fetch_handled cloudflare request env w);
    cbn [snd calls logged reported]; rewrite <- ?app_assoc; cbn [app].
  1-5: exists []; split; [now rewrite app_nil_r | now left].
  1-3: exists [ZonesList]; split; [reflexivity | right; now left].
  - eexists. split; [reflexivity|]. do 2 right.
    exists hostname, myip, zone, t, c. split; [assumption | now left].
  - eexists. split; [reflexivity|]. do 2 right.
    exists hostname, myip, zone, t, c. split; [assumption | right; now left].
  - eexists. split; [reflexivity|]. do 2 right.
    exists hostname, myip, zone, t, c. split; [assumption | right; now left].
  - eexists. split; [reflexivity|]. do 2 right.
    exists hostname, myip, zone, t, c. split; [assumption|]. do 2 right.
    now exists records, record, id.
  - eexists. split; [reflexivity|]. do 2 right.
    exists hostname, myip, zone, t, c. split; [assumption|]. do 2 right.
    now exists records, record, id.
Qed.

(** ** The gate *)

(** X1. A request that is not authenticated goes no further than the
    credential check: the answer is 401 "You need to login." with a
    challenge, or 400 "Malformed authorization header."; no provider call is
    made and nothing is logged. *)
Theorem unauthenticated_stops_at_gate `{IpAddress} (cloudflare : Cloudflare)
    (request : Request) (env : Env) (w : World) :
  ~ authenticated request env ->
  exists r,
    fetch cloudflare request env w = (Returned r, w)
    /\ ((status r = 401 /\ body r = "You need to login."
         /\ exists realm, headers r = challenge realm)
        \/ (status r = 400 /\ body r = "Malformed authorization header."
            /\ headers r = [])).
Proof.
  intros Hno.
  destruct (fetch_handled cloudflare request env w); try contradiction;
    try match goal with
        | Hr : resolved _ _ _ _ _ _ _ _ |- _ =>
            destruct Hr as (Hauth & _); contradiction
        end.
  - eexists. split; [reflexivity|]. left. repeat split. now eexists.
  - eexists. split; [reflexivity|]. right. now repeat split.
  - eexists. split; [reflexivity|]. left. repeat split. now eexists.
Qed.

Lemma unauthenticated_stops_at_gate_witness :
  exists r,
    fetch (Sample.account [])
      {| headers_Authorization := Some (lit "Basic dXNlcjp3cm9uZw==");
         searchParams := [(lit "hostname", lit "home.example.com");
                          (lit "myip", lit "203.0.113.5")] |}
      Sample.env World_empty
    = (Returned r, World_empty)
    /\ ((status r = 401 /\ body r = "You need to login."
         /\ exists realm, headers r = challenge realm)
        \/ (status r = 400 /\ body r = "Malformed authorization header."
            /\ headers r = [])).
Proof.
  apply (unauthenticated_stops_at_gate (Sample.account []) _ Sample.env
           World_empty).
  intros (encoded & Htoken & Huser & Hpass).
  vm_compute in Htoken. injection Htoken as <-.
  vm_compute in Hpass. discriminate.
Defined.

Lemma header_token_none_malformed `{IpAddress} (cloudflare : Cloudflare)
    (request : Request) (env : Env) (w : World) (authorization : jsstring) :
  headers_Authorization request = Some authorization ->
  authorization <> [] ->
  header_token request = None ->
  fetch cloudflare request env w = (Returned malformed, w).
Proof.
  intros Hhead Hne Htoken. rewrite fetch_stages.
  apply authenticate_malformed; [|assumption].
  rewrite Hhead. now destruct authorization.
Qed.

(** X2. A non-empty header is answered with 400 "Malformed authorization
    header." when it has no space, when the text before its first space is
    not exactly "Basic", or when nothing stands between the first space and
    the next space or the end of the header. *)
Theorem header_shapes_rejected `{IpAddress} (cloudflare : Cloudflare)
    (request : Request) (env : Env) (w : World) (authorization : jsstring) :
  headers_Authorization request = Some authorization ->
  authorization <> [] ->
  ~ In 32 authorization
  \/ (exists scheme rest,
        authorization = scheme ++ 32 :: rest
        /\ ~ In 32 scheme /\ scheme <> lit "Basic")
  \/ (exists scheme, authorization = scheme ++ [32] /\ ~ In 32 scheme)
  \/ (exists scheme rest,
        authorization = scheme ++ 32 :: 32 :: rest /\ ~ In 32 scheme) ->
  fetch cloudflare request env w
  = (Returned {| body := "Malformed authorization header."; status := 400;
                 headers := [] |}, w).
Proof.
  intros Hhead Hne Hshape.
  apply header_token_none_malformed with authorization; try assumption.
  unfold header_token. rewrite Hhead. change (lit " ") with [32].
  destruct Hshape as [Hnone|[(scheme & rest & -> & Hs & Hbasic)
                     |[(scheme & -> & Hs)|(scheme & rest & -> & Hs)]]].
  - unfold split. now rewrite split_go_absent.
  - unfold split. rewrite split_go_first by assumption. cbn [rev app].
    destruct (split_go [32] 0 [] rest) as [|encoded pieces]; [reflexivity|].
    apply jsstring_eqb_neq in Hbasic. rewrite Hbasic.
    now rewrite !andb_false_r.
  - unfold split. rewrite split_go_first by assumption.
    cbn [split_go rev app truthy]. now rewrite andb_false_r.
  - unfold split. rewrite split_go_first by assumption.
    cbn [split_go startsWith Z.eqb Pos.eqb andb rev app length Nat.sub
         truthy].
    now rewrite andb_false_r.
Qed.

Lemma header_shapes_rejected_witness :
  fetch (Sample.account [])
    {| headers_Authorization := Some (lit "basic dXNlcjpwYXNz");
       searchParams := [] |}
    Sample.env World_empty
  = (Returned {| body := "Malformed authorization header."; status := 400;
                 headers := [] |}, World_empty).
Proof.
  apply (header_shapes_rejected (Sample.account []) _ Sample.env World_empty
           (lit "basic dXNlcjpwYXNz")).
  - reflexivity.
  - discriminate.
  - right. left. exists (lit "basic"), (lit "dXNlcjpwYXNz").
    split; [reflexivity|]. split; [|discriminate].
    intros [Hc|[Hc|[Hc|[Hc|[Hc|[]]]]]]; discriminate.
Defined.

(** X3. For an authenticated request, a missing or empty [hostname] is
    answered with 400 "No hostname provided", also when [myip] is missing
    too; with a hostname, a missing or empty [myip] is answered with 400
    "No myip provided".  In both cases no provider call is made. *)
Theorem missing_parameter_rejected `{IpAddress} (cloudflare : Cloudflare)
    (request : Request) (env : Env) (w : World) :
  authenticated request env ->
  ((searchParams_get request (lit "hostname") = None
    \/ searchParams_get request (lit "hostname") = Some []) ->
   fetch cloudflare request env w
   = (Returned {| body := "No hostname provided"; status := 400;
                  headers := [] |}, w))
  /\ (forall hostname,
        searchParams_get request (lit "hostname") = Some hostname ->
        hostname <> [] ->
        (searchParams_get request (lit "myip") = None
         \/ searchParams_get request (lit "myip") = Some []) ->
        fetch cloudflare request env w
        = (Returned {| body := "No myip provided"; status := 400;
                       headers := [] |}, w)).
Proof.
  intros Hauth. split.
  - intros Hh. rewrite fetch_authenticated by assumption.
    apply validate_no_hostname. now destruct Hh as [-> | ->].
  - intros hostname Hh Hne Hm. rewrite fetch_authenticated by assumption.
    apply validate_no_myip.
    + rewrite Hh. now destruct hostname.
    + now destruct Hm as [-> | ->].
Qed.

Lemma missing_parameter_rejected_witness :
  fetch (Sample.account [])
    {| headers_Authorization := Some (lit "Basic dXNlcjpwYXNz");
       searchParams := [(lit "hostname", []); (lit "other", lit "x")] |}
    Sample.env World_empty
  = (Returned {| body := "No hostname provided"; status := 400;
                 headers := [] |}, World_empty).
Proof.
  refine (proj1 (missing_parameter_rejected (Sample.account []) _ Sample.env
                   World_empty _) _).
  - exists (lit "dXNlcjpwYXNz"). repeat split.
  - now right.
Defined.

(** ** Failures *)

(** X4. The only exception that leaves the handler is one thrown by the
    zone listing, for an authenticated request with both parameters; the
    zone listing is then the only call made. *)
Theorem only_zone_listing_escapes `{IpAddress} (cloudflare : Cloudflare)
    (request : Request) (env : Env) (w w' : World) (e : exn) :
  fetch cloudflare request env w = (Thrown e, w') ->
  zones_list cloudflare = Thrown e
  /\ w' = logged ZonesList w
  /\ authenticated request env
  /\ exists hostname myip, validated request hostname myip.
Proof.
  intros Hfetch.
  pose proof (fetch_handled cloudflare request env w) as Hcase.
  rewrite Hfetch in Hcase. inversion Hcase; subst.
  repeat split; try assumption. now exists hostname, myip.
Qed.

Lemma only_zone_listing_escapes_witness :
  zones_list Sample.unreachable = Thrown (Error "fetch failed")
  /\ logged ZonesList World_empty = logged ZonesList World_empty
  /\ authenticated (Sample.request "home.example.com" "203.0.113.5")
       Sample.env
  /\ exists hostname myip,
       validated (Sample.request "home.example.com" "203.0.113.5")
         hostname myip.
Proof.
  apply (only_zone_listing_escapes Sample.unreachable
           (Sample.request "home.example.com" "203.0.113.5") Sample.env
           World_empty (logged ZonesList World_empty) (Error "fetch failed")).
  reflexivity.
Defined.

(** X5. When the record listing throws, the handler logs the error with
    [console.error] and answers 500 "Error modifying DNS record"; no create
    and no update is issued. *)
Theorem records_listing_failure_answered `{IpAddress}
    (cloudflare : Cloudflare) (request : Request) (env : Env)
    (hostname myip : jsstring) (zones : list Zone) (zone : Zone) (e : exn)
    (w : World) :
  authenticated request env ->
  validated request hostname myip ->
  zones_list cloudflare = Returned zones ->
  first_such (fun z => is_suffix (zone_name z) hostname) zones zone ->
  Address4_isValid myip = true \/ Address6_isValid myip = true ->
  dns_records_list cloudflare (zone_id zone) = Thrown e ->
  fetch cloudflare request env w
  = (Returned {| body := "Error modifying DNS record"; status := 500;
                 headers := [] |},
     {| calls := calls w ++ [ZonesList; RecordsList (zone_id zone)];
        console := console w ++ [e] |}).
Proof.
  intros Hauth Hvalid Hzones Hfirst Hip Hlist.
  rewrite (fetch_validated _ _ _ _ _ _ Hauth Hvalid).
  rewrite (resolve_zone _ _ _ zones zone) by
    (assumption || now apply zone_find_first_such).
  destruct (classify myip) as [[t c]|] eqn:Hclass.
  - rewrite (records_list_failure_caught _ _ _ _ _ _ e _ Hclass Hlist).
    unfold reported, logged. cbn [calls console].
    now rewrite <- app_assoc.
  - apply classify_none in Hclass as [H4 H6].
    destruct Hip; congruence.
Qed.

Lemma records_listing_failure_answered_witness :
  fetch Faulty.listing (Sample.request "home.example.com" "203.0.113.5")
    Sample.env World_empty
  = (Returned {| body := "Error modifying DNS record"; status := 500;
                 headers := [] |},
     {| calls := [ZonesList; RecordsList (lit "z1")];
        console := [Error "listing failed"] |}).
Proof.
  apply (records_listing_failure_answered Faulty.listing
           (Sample.request "home.example.com" "203.0.113.5") Sample.env
           (lit "home.example.com") (lit "203.0.113.5")
           [Sample.example_com; Sample.example_net] Sample.example_com
           (Error "listing failed") World_empty).
  - exists (lit "dXNlcjpwYXNz"). repeat split.
  - repeat split.
  - reflexivity.
  - apply zone_find_first_such. reflexivity.
  - now left.
  - reflexivity.
Defined.

(** X6. When the create or the update call throws, the call has been
    issued, the error is logged with [console.error] and the answer is 500
    "Error modifying DNS record"; the call is not tried again. *)
Theorem write_failure_answered `{IpAddress} (cloudflare : Cloudflare)
    (request : Request) (env : Env) (hostname myip : jsstring)
    (zones : list Zone) (zone : Zone) (t : RecordType) (c : jsstring)
    (records : list DnsRecord) (e : exn) (w : World) :
  authenticated request env ->
  validated request hostname myip ->
  zones_list cloudflare = Returned zones ->
  first_such (fun z => is_suffix (zone_name z) hostname) zones zone ->
  classify myip = Some (t, c) ->
  dns_records_list cloudflare (zone_id zone) = Returned records ->
  let b := new_record zone hostname t c in
  ((forall r, In r records -> record_name r <> hostname) ->
   dns_records_create cloudflare (zone_id zone) b = Thrown e ->
   fetch cloudflare request env w
   = (Returned {| body := "Error modifying DNS record"; status := 500;
                  headers := [] |},
      {| calls := calls w ++ [ZonesList; RecordsList (zone_id zone);
                              RecordsCreate (zone_id zone) b];
         console := console w ++ [e] |}))
  /\ (forall record id,
        first_such (fun r => record_name r = hostname) records record ->
        record_id record = Some id ->
        id <> [] ->
        dns_records_update cloudflare id (zone_id zone) b = Thrown e ->
        fetch cloudflare request env w
        = (Returned {| body := "Error modifying DNS record"; status := 500;
                       headers := [] |},
           {| calls := calls w ++ [ZonesList; RecordsList (zone_id zone);
                                   RecordsUpdate id (zone_id zone) b];
              console := console w ++ [e] |})).
Proof.
  intros Hauth Hvalid Hzones Hfirst Hclass Hlist b.
  pose proof (fetch_upsert _ _ _ _ _ _ _ _ _ _ w
                Hauth Hvalid Hzones Hfirst Hclass Hlist) as Hfetch.
  cbv zeta in Hfetch. fold b in Hfetch. split.
  - intros Hnone Hcreate. apply record_find_none in Hnone.
    rewrite Hnone in Hfetch. cbn [falsy] in Hfetch.
    rewrite Hcreate in Hfetch. rewrite Hfetch.
    unfold reported, logged. cbn [calls console].
    now rewrite <- !app_assoc.
  - intros record id Hrecord Hid Hne Hupdate.
    apply record_find_first_such in Hrecord.
    rewrite Hrecord, Hid in Hfetch. cbn [falsy] in Hfetch.
    destruct id as [|x id]; [contradiction|]. cbn [truthy negb] in Hfetch.
    rewrite Hupdate in Hfetch. rewrite Hfetch.
    unfold reported, logged. cbn [calls console].
    now rewrite <- !app_assoc.
Qed.

Lemma write_failure_answered_witness :
  fetch (Faulty.writes [Sample.home_record (Some (lit "rec1"))])
    (Sample.request "home.example.com" "203.0.113.5") Sample.env World_empty
  = (Returned {| body := "Error modifying DNS record"; status := 500;
                 headers := [] |},
     {| calls :=
          [ZonesList; RecordsList (lit "z1");
           RecordsUpdate (lit "rec1") (lit "z1")
             {| content := lit "203.0.113.5"; name := lit "home";
                ttl := 300; proxied := false; type := A |}];
        console := [Error "update failed"] |}).
Proof.
  refine (proj2 (write_failure_answered
                   (Faulty.writes [Sample.home_record (Some (lit "rec1"))])
                   (Sample.request "home.example.com" "203.0.113.5")
                   Sample.env (lit "home.example.com") (lit "203.0.113.5")
                   [Sample.example_com; Sample.example_net] Sample.example_com
                   A (lit "203.0.113.5")
                   [Sample.home_record (Some (lit "rec1"))]
                   (Error "update failed") World_empty _ _ _ _ _ _)
            (Sample.home_record (Some (lit "rec1"))) (lit "rec1") _ _ _ _).
  - exists (lit "dXNlcjpwYXNz"). repeat split.
  - repeat split.
  - reflexivity.
  - apply zone_find_first_such. reflexivity.
  - reflexivity.
  - reflexivity.
  - apply record_find_first_such. reflexivity.
  - reflexivity.
  - discriminate.
  - reflexivity.
Defined.

(** ** The provider calls of a request *)

(** X7. Whatever the request and the provider, the calls a request makes
    are, in this order, at most one zone listing, one record listing of one
    zone and one create or update in that same zone: never a write without
    the two listings before it, never two writes. *)
Theorem provider_calls_in_order `{IpAddress} (cloudflare : Cloudflare)
    (request : Request) (env : Env) (w : World) :
  exists new,
    calls (snd (fetch cloudflare request env w)) = calls w ++ new
    /\ (new = []
        \/ new = [ZonesList]
        \/ exists zone,
             new = [ZonesList; RecordsList zone]
             \/ (exists b,
                   new = [ZonesList; RecordsList zone; RecordsCreate zone b])
             \/ (exists id b,
                   new = [ZonesList; RecordsList zone;
                          RecordsUpdate id zone b])).
Proof.
  destruct (fetch_calls cloudflare request env w)
    as (new & Hcalls & [Hn|[Hn|(h & m & z & t & c & _ & Hn)]]);
    exists new; (split; [assumption|]).
  - now left.
  - right. now left.
  - do 2 right. exists (zone_id z).
    destruct Hn as [Hn|[Hn|(records & record & id & _ & _ & _ & _ & Hn)]].
    + now left.
    + right. left. eexists. exact Hn.
    + right. right. eexists _, _. exact Hn.
Qed.

(** X8. A 200 answer means that a write was issued and returned: the log
    ends with a create whose call returned and the body is "DNS record
    created successfully", or with an update whose call returned and the
    body is "DNS record updated successfully". *)
Theorem success_means_write_returned `{IpAddress} (cloudflare : Cloudflare)
    (request : Request) (env : Env) (w w' : World) (r : Response) :
  fetch cloudflare request env w = (Returned r, w') ->
  status r = 200 ->
  exists zone b,
    (calls w' = calls w ++ [ZonesList; RecordsList zone; RecordsCreate zone b]
     /\ dns_records_create cloudflare zone b = Returned tt
     /\ body r = "DNS record created successfully")
    \/ (exists id,
          calls w' = calls w ++ [ZonesList; RecordsList zone;
                                 RecordsUpdate id zone b]
          /\ dns_records_update cloudflare id zone b = Returned tt
          /\ body r = "DNS record updated successfully").
Proof.
  intros Hfetch Hstatus.
  pose proof (fetch_handled cloudflare request env w) as Hcase.
  rewrite Hfetch in Hcase. inversion Hcase; subst; try discriminate.
  - eexists _, _. left. cbn [calls logged]. rewrite <- !app_assoc.
    now repeat split.
  - eexists _, _. right. eexists. cbn [calls logged]. rewrite <- !app_assoc.
    now repeat split.
Qed.

Lemma success_means_write_returned_witness :
  exists zone b,
    (calls {| calls :=
                [ZonesList; RecordsList (lit "z1");
                 RecordsCreate (lit "z1")
                   {| content := lit "203.0.113.5"; name := lit "home";
                      ttl := 300; proxied := false; type := A |}];
              console := [] |}
     = calls World_empty
       ++ [ZonesList; RecordsList zone; RecordsCreate zone b]
     /\ dns_records_create (Sample.account []) zone b = Returned tt
     /\ body created = "DNS record created successfully")
    \/ (exists id,
          calls {| calls :=
                     [ZonesList; RecordsList (lit "z1");
                      RecordsCreate (lit "z1")
                        {| content := lit "203.0.113.5"; name := lit "home";
                           ttl := 300; proxied := false; type := A |}];
                   console := [] |}
          = calls World_empty
            ++ [ZonesList; RecordsList zone; RecordsUpdate id zone b]
          /\ dns_records_update (Sample.account []) id zone b = Returned tt
          /\ body created = "DNS record updated successfully").
Proof.
  apply (success_means_write_returned (Sample.account [])
           (Sample.request "home.example.com" "203.0.113.5") Sample.env
           World_empty).
  - reflexivity.
  - reflexivity.
Defined.

(** X9. [console.error] is called exactly when the answer is 500: then one
    error is logged, the one a provider call of this request threw;
    otherwise the console is left as it was. *)
Theorem logged_exactly_on_500 `{IpAddress} (cloudflare : Cloudflare)
    (request : Request) (env : Env) (w : World) :
  let result := fetch cloudflare request env w in
  (fst result
   = Returned {| body := "Error modifying DNS record"; status := 500;
                 headers := [] |}
   /\ exists e,
        console (snd result) = console w ++ [e]
        /\ ((exists zone, dns_records_list cloudflare zone = Thrown e)
            \/ (exists zone b,
                  dns_records_create cloudflare zone b = Thrown e)
            \/ (exists id zone b,
                  dns_records_update cloudflare id zone b = Thrown e)))
  \/ (console (snd result) = console w
      /\ forall r, fst result = Returned r -> status r <> 500).
Proof.
  cbv zeta.
  destruct (fetch_handled cloudflare request env w); cbn [fst snd].
  1-8, 10, 12: right; (split; [reflexivity|]);
    try (intros r [= <-]; discriminate); intros r; discriminate.
  - left. split; [reflexivity|]. exists e. split; [reflexivity|].
    left. eexists. eassumption.
  - left. split; [reflexivity|]. exists e. split; [reflexivity|].
    right. left. eexists _, _. eassumption.
  - left. split; [reflexivity|]. exists e. split; [reflexivity|].
    right. right. eexists _, _, _. eassumption.
Qed.

(** X10. An answer has status 200, 400, 401 or 500; it carries a
    [WWW-Authenticate] challenge exactly when its status is 401. *)
Theorem answer_statuses `{IpAddress} (cloudflare : Cloudflare)
    (request : Request) (env : Env) (w : World) :
  match fst (fetch cloudflare request env w) with
  | Returned r =>
      (status r = 200 \/ status r = 400 \/ status r = 401 \/ status r = 500)
      /\ (status r = 401 <-> exists realm, headers r = challenge realm)
      /\ (status r <> 401 <-> headers r = [])
  | Thrown _ => True
  end.
Proof.
  destruct (fetch_handled cloudflare request env w); cbn [fst];
    try exact I;
    (split; [cbn; tauto|]); cbn [status headers login_required malformed
      unauthorized no_hostname no_myip zone_not_found invalid_address
      server_error created updated];
    (split; split);
    try discriminate; try (intros _; now eexists); try reflexivity;
    try (intros [realm Hrealm]; discriminate);
    try (intros Hne; now contradiction Hne).
Qed.

(** ** The bodies written *)

(** Every create or update of a request is the one of lines 144-155 for the
    zone found and the address classified. *)
Lemma written_calls `{IpAddress} (cloudflare : Cloudflare) (request : Request)
    (env : Env) (w : World) (new : list Call) (call : Call) :
  calls (snd (fetch cloudflare request env w)) = calls w ++ new ->
  In call new ->
  is_write call = true ->
  exists h m z t c,
    resolved cloudflare request env h m z t c
    /\ (call = RecordsCreate (zone_id z) (new_record z h t c)
        \/ exists records record id,
             dns_records_list cloudflare (zone_id z) = Returned records
             /\ first_such (fun r => record_name r = h) records record
             /\ record_id record = Some id
             /\ id <> []
             /\ call = RecordsUpdate id (zone_id z) (new_record z h t c)).
Proof.
  intros Hcalls Hin Hwrite.
  destruct (fetch_calls cloudflare request env w)
    as (new' & Hcalls' & Hshape).
  rewrite Hcalls in Hcalls'. apply app_inv_head in Hcalls'. subst new'.
  destruct Hshape as [->|[->|(h & m & z & t & c & Hres & Hshape)]].
  - destruct Hin.
  - destruct Hin as [<-|[]]. discriminate.
  - exists h, m, z, t, c. split; [assumption|].
    destruct Hshape
      as [->|[->|(records & record & id & Hl & Hr & Hid & Hne & ->)]].
    + destruct Hin as [<-|[<-|[]]]; discriminate.
    + destruct Hin as [<-|[<-|[<-|[]]]]; try discriminate. now left.
    + destruct Hin as [<-|[<-|[<-|[]]]]; try discriminate. right.
      now exists records, record, id.
Qed.

Lemma written_body `{IpAddress} (cloudflare : Cloudflare) (request : Request)
    (env : Env) (w : World) (new : list Call) (zone : jsstring)
    (b : NewRecord) :
  calls (snd (fetch cloudflare request env w)) = calls w ++ new ->
  In (RecordsCreate zone b) new
  \/ (exists id, In (RecordsUpdate id zone b) new) ->
  exists h m z t c,
    resolved cloudflare request env h m z t c
    /\ zone = zone_id z /\ b = new_record z h t c.
Proof.
  intros Hcalls [Hin|[id Hin]];
    destruct (written_calls _ _ _ _ _ _ Hcalls Hin eq_refl)
      as (h & m & z & t & c & Hres & [Hc|(rs & r & id' & _ & _ & _ & _ & Hc)]);
    try discriminate; injection Hc as -> ->; try subst;
    now exists h, m, z, t, c.
Qed.

(** X11. Every create or update body a request sends has ttl 300 and
    proxied false; its type is A and its content the IPv4 correct form when
    [myip] is a valid IPv4 literal (also when it is a valid IPv6 literal
    too), and type AAAA with the IPv6 correct form when [myip] is a valid
    IPv6 literal only. *)
Theorem written_body_fields `{IpAddress} (cloudflare : Cloudflare)
    (request : Request) (env : Env) (w : World) (new : list Call)
    (myip zone : jsstring) (b : NewRecord) :
  searchParams_get request (lit "myip") = Some myip ->
  calls (snd (fetch cloudflare request env w)) = calls w ++ new ->
  In (RecordsCreate zone b) new
  \/ (exists id, In (RecordsUpdate id zone b) new) ->
  ttl b = 300 /\ proxied b = false
  /\ ((Address4_isValid myip = true /\ type b = A
       /\ content b = Address4_correctForm myip)
      \/ (Address4_isValid myip = false /\ Address6_isValid myip = true
          /\ type b = AAAA /\ content b = Address6_correctForm myip)).
Proof.
  intros Hip Hcalls Hin.
  destruct (written_body _ _ _ _ _ _ _ Hcalls Hin)
    as (h & m & z & t & c & Hres & -> & ->).
  destruct Hres as (_ & (_ & _ & Hm & _) & _ & Hclass).
  rewrite Hip in Hm. injection Hm as <-.
  split; [reflexivity|]. split; [reflexivity|].
  unfold classify in Hclass. cbn [type content new_record].
  destruct (Address4_isValid myip).
  - injection Hclass as <- <-. now left.
  - destruct (Address6_isValid myip); [|discriminate].
    injection Hclass as <- <-. now right.
Qed.

Lemma written_body_fields_witness :
  ttl {| content := lit "2001:db8::1"; name := lit "home"; ttl := 300;
         proxied := false; type := AAAA |} = 300
  /\ proxied {| content := lit "2001:db8::1"; name := lit "home"; ttl := 300;
                proxied := false; type := AAAA |} = false
  /\ ((Address4_isValid (lit "2001:DB8::1") = true
       /\ type {| content := lit "2001:db8::1"; name := lit "home";
                  ttl := 300; proxied := false; type := AAAA |} = A
       /\ content {| content := lit "2001:db8::1"; name := lit "home";
                     ttl := 300; proxied := false; type := AAAA |}
          = Address4_correctForm (lit "2001:DB8::1"))
      \/ (Address4_isValid (lit "2001:DB8::1") = false
          /\ Address6_isValid (lit "2001:DB8::1") = true
          /\ type {| content := lit "2001:db8::1"; name := lit "home";
                     ttl := 300; proxied := false; type := AAAA |} = AAAA
          /\ content {| content := lit "2001:db8::1"; name := lit "home";
                        ttl := 300; proxied := false; type := AAAA |}
             = Address6_correctForm (lit "2001:DB8::1"))).
Proof.
  apply (written_body_fields
           (Sample.account [Sample.home_record (Some (lit "rec1"))])
           (Sample.request "home.example.com" "2001:DB8::1") Sample.env
           World_empty
           [ZonesList; RecordsList (lit "z1");
            RecordsUpdate (lit "rec1") (lit "z1")
              {| content := lit "2001:db8::1"; name := lit "home";
                 ttl := 300; proxied := false; type := AAAA |}]
           (lit "2001:DB8::1") (lit "z1")).
  - reflexivity.
  - reflexivity.
  - right. exists (lit "rec1"). right. right. now left.
Defined.

(** X12. When the hostname is the name of the zone found, every body
    written has the name "@" and goes to that zone. *)
Theorem apex_record_named_at `{IpAddress} (cloudflare : Cloudflare)
    (request : Request) (env : Env) (w : World) (new : list Call)
    (myip : jsstring) (zones : list Zone) (z : Zone) (zone : jsstring)
    (b : NewRecord) :
  validated request (zone_name z) myip ->
  zones_list cloudflare = Returned zones ->
  first_such (fun z' => is_suffix (zone_name z') (zone_name z)) zones z ->
  calls (snd (fetch cloudflare request env w)) = calls w ++ new ->
  In (RecordsCreate zone b) new
  \/ (exists id, In (RecordsUpdate id zone b) new) ->
  name b = lit "@" /\ zone = zone_id z.
Proof.
  intros Hvalid Hzones Hfirst Hcalls Hin.
  destruct (written_body _ _ _ _ _ _ _ Hcalls Hin)
    as (h & m & z' & t & c & Hres & -> & ->).
  destruct Hres as (_ & Hvalid' & (zones' & Hzones' & Hfirst') & _).
  destruct (validated_unique _ _ _ _ _ Hvalid Hvalid') as [<- <-].
  rewrite Hzones in Hzones'. injection Hzones' as <-.
  apply zone_find_first_such in Hfirst, Hfirst'.
  rewrite Hfirst in Hfirst'. injection Hfirst' as <-.
  split; [apply new_record_apex | reflexivity].
Qed.

Lemma apex_record_named_at_witness :
  name {| content := lit "203.0.113.5"; name := lit "@"; ttl := 300;
          proxied := false; type := A |} = lit "@"
  /\ lit "z1" = zone_id Sample.example_com.
Proof.
  apply (apex_record_named_at (Sample.account [])
           (Sample.request "example.com" "203.0.113.5") Sample.env
           World_empty
           [ZonesList; RecordsList (lit "z1");
            RecordsCreate (lit "z1")
              {| content := lit "203.0.113.5"; name := lit "@"; ttl := 300;
                 proxied := false; type := A |}]
           (lit "203.0.113.5") [Sample.example_com; Sample.example_net]
           Sample.example_com (lit "z1")).
  - repeat split.
  - reflexivity.
  - apply zone_find_first_such. reflexivity.
  - reflexivity.
  - left. right. right. now left.
Defined.

Lemma new_record_prefix (zone : Zone) (pre : jsstring) (t : RecordType)
    (c : jsstring) :
  (forall a b,
      pre ++ lit "." ++ zone_name zone
      = a ++ (lit "." ++ zone_name zone) ++ b -> b = []) ->
  name (new_record zone (pre ++ lit "." ++ zone_name zone) t c) = pre.
Proof.
  intros Honly. unfold new_record. cbn [name].
  destruct (JS.eqb (pre ++ lit "." ++ zone_name zone) (zone_name zone))
    eqn:Heq.
  - apply jsstring_eqb_eq in Heq. apply (f_equal (@length Z)) in Heq.
    rewrite !length_app in Heq. simpl in Heq. lia.
  - replace (pre ++ lit "." ++ zone_name zone)
      with (pre ++ (lit "." ++ zone_name zone) ++ []) at 1
      by now rewrite app_nil_r.
    apply split_head; [discriminate|].
    intros a b Hab. rewrite app_nil_r in Hab.
    pose proof (Honly a b Hab) as ->. rewrite app_nil_r in Hab.
    apply app_inv_tail in Hab. now subst.
Qed.

(** X13. When the hostname is a prefix followed by "." and the name of the
    zone found, and that is the only place where "." and the zone name occur
    in it, every body written has that prefix for name. *)
Theorem subdomain_record_name `{IpAddress} (cloudflare : Cloudflare)
    (request : Request) (env : Env) (w : World) (new : list Call)
    (pre myip : jsstring) (zones : list Zone) (z : Zone) (zone : jsstring)
    (b : NewRecord) :
  let hostname := pre ++ lit "." ++ zone_name z in
  validated request hostname myip ->
  zones_list cloudflare = Returned zones ->
  first_such (fun z' => is_suffix (zone_name z') hostname) zones z ->
  (forall a rest,
      hostname = a ++ (lit "." ++ zone_name z) ++ rest -> rest = []) ->
  calls (snd (fetch cloudflare request env w)) = calls w ++ new ->
  In (RecordsCreate zone b) new
  \/ (exists id, In (RecordsUpdate id zone b) new) ->
  name b = pre.
Proof.
  intros hostname Hvalid Hzones Hfirst Honly Hcalls Hin.
  destruct (written_body _ _ _ _ _ _ _ Hcalls Hin)
    as (h & m & z' & t & c & Hres & -> & ->).
  destruct Hres as (_ & Hvalid' & (zones' & Hzones' & Hfirst') & _).
  destruct (validated_unique _ _ _ _ _ Hvalid Hvalid') as [<- <-].
  rewrite Hzones in Hzones'. injection Hzones' as <-.
  apply zone_find_first_such in Hfirst, Hfirst'.
  rewrite Hfirst in Hfirst'. injection Hfirst' as <-.
  now apply new_record_prefix.
Qed.

Lemma only_trailing_occurrence (label zone : jsstring) :
  ~ In 46 label ->
  forall a rest,
    label ++ lit "." ++ zone = a ++ (lit "." ++ zone) ++ rest -> rest = [].
Proof.
  intros Hdot a rest Hab.
  assert (Hlen : (length label <= length a)%nat).
  { destruct (Nat.le_gt_cases (length label) (length a)) as [Hle|Hlt];
      [assumption|].
    destruct (prefix_of_shorter a label _ _ Hab Hlt) as (x & l' & ->).
    rewrite <- app_assoc in Hab. apply app_inv_head in Hab.
    injection Hab as -> _. contradiction Hdot.
    apply in_or_app. right. now left. }
  apply (f_equal (@length Z)) in Hab. rewrite !length_app in Hab.
  destruct rest; [reflexivity|]. simpl in Hab. lia.
Qed.

Lemma subdomain_record_name_witness :
  name {| content := lit "203.0.113.5"; name := lit "home"; ttl := 300;
          proxied := false; type := A |} = lit "home".
Proof.
  apply (subdomain_record_name (Sample.account [])
           (Sample.request "home.example.com" "203.0.113.5") Sample.env
           World_empty
           [ZonesList; RecordsList (lit "z1");
            RecordsCreate (lit "z1")
              {| content := lit "203.0.113.5"; name := lit "home";
                 ttl := 300; proxied := false; type := A |}]
           (lit "home") (lit "203.0.113.5")
           [Sample.example_com; Sample.example_net]
           Sample.example_com (lit "z1")).
  - repeat split.
  - reflexivity.
  - apply zone_find_first_such. reflexivity.
  - apply only_trailing_occurrence.
    intros [Hc|[Hc|[Hc|[Hc|[]]]]]; discriminate.
  - reflexivity.
  - left. right. right. now left.
Defined.

(** X14. An update is never issued with an empty id: its id is the id of
    the first listed record of the zone whose name is the hostname. *)
Theorem update_keyed_by_named_record `{IpAddress} (cloudflare : Cloudflare)
    (request : Request) (env : Env) (w : World) (new : list Call)
    (hostname myip id zone : jsstring) (b : NewRecord) :
  validated request hostname myip ->
  calls (snd (fetch cloudflare request env w)) = calls w ++ new ->
  In (RecordsUpdate id zone b) new ->
  id <> []
  /\ exists records record,
       dns_records_list cloudflare zone = Returned records
       /\ first_such (fun r => record_name r = hostname) records record
       /\ record_id record = Some id.
Proof.
  intros Hvalid Hcalls Hin.
  destruct (written_calls _ _ _ _ _ _ Hcalls Hin eq_refl)
    as (h & m & z & t & c & Hres
        & [Hc|(records & record & id' & Hl & Hr & Hid & Hne & Hc)]);
    [discriminate|].
  injection Hc as -> -> ->.
  destruct Hres as (_ & Hvalid' & _).
  destruct (validated_unique _ _ _ _ _ Hvalid Hvalid') as [<- <-].
  split; [assumption|]. now exists records, record.
Qed.

Lemma update_keyed_by_named_record_witness :
  lit "rec1" <> []
  /\ exists records record,
       dns_records_list
         (Sample.account [Sample.home_record (Some (lit "rec1"))])
         (lit "z1")
       = Returned records
       /\ first_such (fun r => record_name r = lit "home.example.com")
            records record
       /\ record_id record = Some (lit "rec1").
Proof.
  apply (update_keyed_by_named_record
           (Sample.account [Sample.home_record (Some (lit "rec1"))])
           (Sample.request "home.example.com" "203.0.113.5") Sample.env
           World_empty
           [ZonesList; RecordsList (lit "z1");
            RecordsUpdate (lit "rec1") (lit "z1")
              {| content := lit "203.0.113.5"; name := lit "home";
                 ttl := 300; proxied := false; type := A |}]
           (lit "home.example.com") (lit "203.0.113.5") (lit "rec1")
           (lit "z1")
           {| content := lit "203.0.113.5"; name := lit "home";
              ttl := 300; proxied := false; type := A |}).
  - repeat split.
  - reflexivity.
  - right. right. now left.
Defined.

Lemma split_go_none (sep s cur : jsstring) :
  sep <> [] ->
  (forall a b, s <> a ++ sep ++ b) ->
  split_go sep O cur s = [rev cur ++ s].
Proof.
  intros Hsep. revert cur; induction s as [|x s IH]; intros cur Hnone.
  - simpl. now rewrite app_nil_r.
  - cbn [split_go].
    destruct (startsWith (x :: s) sep) eqn:Hstart.
    + apply startsWith_prefix in Hstart as [post Hpost].
      now contradiction (Hnone [] post).
    + rewrite IH.
      * simpl. now rewrite <- app_assoc.
      * intros a b Hab. apply (Hnone (x :: a) b). simpl. now rewrite Hab.
Qed.

(** X15. When the hostname ends with the name of the zone found without
    being that name, and "." followed by the zone name occurs nowhere in it
    (the zone was matched across a label, as myexample.com by example.com),
    every body written has the whole hostname for name. *)
Theorem unbounded_suffix_record_name `{IpAddress} (cloudflare : Cloudflare)
    (request : Request) (env : Env) (w : World) (new : list Call)
    (hostname myip : jsstring) (zones : list Zone) (z : Zone)
    (zone : jsstring) (b : NewRecord) :
  validated request hostname myip ->
  zones_list cloudflare = Returned zones ->
  first_such (fun z' => is_suffix (zone_name z') hostname) zones z ->
  hostname <> zone_name z ->
  (forall a rest, hostname <> a ++ (lit "." ++ zone_name z) ++ rest) ->
  calls (snd (fetch cloudflare request env w)) = calls w ++ new ->
  In (RecordsCreate zone b) new
  \/ (exists id, In (RecordsUpdate id zone b) new) ->
  name b = hostname.
Proof.
  intros Hvalid Hzones Hfirst Hne Hnone Hcalls Hin.
  destruct (written_body _ _ _ _ _ _ _ Hcalls Hin)
    as (h & m & z' & t & c & Hres & -> & ->).
  destruct Hres as (_ & Hvalid' & (zones' & Hzones' & Hfirst') & _).
  destruct (validated_unique _ _ _ _ _ Hvalid Hvalid') as [<- <-].
  rewrite Hzones in Hzones'. injection Hzones' as <-.
  apply zone_find_first_such in Hfirst, Hfirst'.
  rewrite Hfirst in Hfirst'. injection Hfirst' as <-.
  unfold new_record. cbn [name].
  apply jsstring_eqb_neq in Hne. rewrite Hne.
  unfold split. cbn [app lit map list_ascii_of_string].
  rewrite split_go_none; [reflexivity | discriminate | exact Hnone].
Qed.

Lemma unbounded_suffix_record_name_witness :
  name {| content := lit "203.0.113.5"; name := lit "myexample.com";
          ttl := 300; proxied := false; type := A |}
  = lit "myexample.com".
Proof.
  apply (unbounded_suffix_record_name (Sample.account [])
           (Sample.request "myexample.com" "203.0.113.5") Sample.env
           World_empty
           [ZonesList; RecordsList (lit "z1");
            RecordsCreate (lit "z1")
              {| content := lit "203.0.113.5"; name := lit "myexample.com";
                 ttl := 300; proxied := false; type := A |}]
           (lit "myexample.com") (lit "203.0.113.5")
           [Sample.example_com; Sample.example_net]
           Sample.example_com (lit "z1")).
  - repeat split.
  - reflexivity.
  - apply zone_find_first_such. reflexivity.
  - discriminate.
  - intros a rest Hab.
    assert (Hdot : In 46 (lit "myex")).
    { destruct (Nat.le_gt_cases (length (lit "myex")) (length a))
        as [Hle|Hlt].
      - apply (f_equal (@length Z)) in Hab. rewrite !length_app in Hab.
        simpl in Hab, Hle. lia.
      - change (lit "myexample.com") with (lit "myex" ++ lit "ample.com")
          in Hab.
        destruct (prefix_of_shorter a (lit "myex") _ _ Hab Hlt)
          as (x & l' & Heq).
        rewrite Heq in Hab. rewrite <- app_assoc in Hab.
        apply app_inv_head in Hab. injection Hab as -> _.
        rewrite Heq. apply in_or_app. right. now left. }
    destruct Hdot as [Hc|[Hc|[Hc|[Hc|[]]]]]; discriminate.
  - reflexivity.
  - left. right. right. now left.
Defined.

(** ** The comparison and the credentials *)

(** X16. On well-formed strings the comparison is string equality: it
    returns [true] when the two strings are the same and [false] when they
    differ. *)
Theorem timingSafeEqual_on_wellformed (a b : jsstring) :
  isWellFormed a = true ->
  isWellFormed b = true ->
  (timingSafeEqual a b = Returned true <-> a = b)
  /\ (timingSafeEqual a b = Returned false <-> a <> b).
Proof.
  intros Ha Hb. destruct (timingSafeEqual_spec a b) as (r & -> & Hr).
  split; split.
  - intros [= ->]. apply encode_injective; try assumption. now apply Hr.
  - intros ->. f_equal. now apply Hr.
  - intros [= ->] Heq. subst b. discriminate (proj2 Hr eq_refl).
  - intros Hne. f_equal. destruct r; [|reflexivity].
    contradiction Hne. apply encode_injective; try assumption. now apply Hr.
Qed.

Lemma timingSafeEqual_on_wellformed_witness :
  (timingSafeEqual (lit "pass") (lit "Pass") = Returned true
   <-> lit "pass" = lit "Pass")
  /\ (timingSafeEqual (lit "pass") (lit "Pass") = Returned false
      <-> lit "pass" <> lit "Pass").
Proof.
  apply (timingSafeEqual_on_wellformed (lit "pass") (lit "Pass"));
    reflexivity.
Defined.

Lemma isWellFormed_before (c : Z) (p u : jsstring) :
  is_low c = false ->
  (isWellFormed (u ++ c :: p) = true -> isWellFormed u = true)
  /\ forall x,
      isWellFormed ((x :: u) ++ c :: p) = true ->
      isWellFormed (x :: u) = true.
Proof.
  intros Hc. induction u as [|d u [IH IHx]].
  - split; [reflexivity|]. intros x. cbn [app isWellFormed].
    destruct (is_high x).
    + rewrite Hc. discriminate.
    + intros Hwf. apply andb_true_iff in Hwf as [Hx _]. now rewrite Hx.
  - split; [apply IHx|]. intros x.
    change ((x :: d :: u) ++ c :: p) with (x :: d :: (u ++ c :: p)).
    cbn [isWellFormed]. destruct (is_high x).
    + intros Hwf. apply andb_true_iff in Hwf as [Hd Hu].
      rewrite Hd. now apply IH.
    + intros Hwf.
      match type of Hwf with
      | ?conds && ?rest = true =>
          change rest with (isWellFormed ((d :: u) ++ c :: p)) in Hwf
      end.
      apply andb_true_iff in Hwf as [Hx Hrest].
      apply IHx in Hrest. cbn [isWellFormed] in Hrest.
      now rewrite Hx, Hrest.
Qed.

(** The username taken from a decoded credential string has no colon and is
    well-formed. *)
Lemma decoded_user_plain (bytes : list Z) :
  let credentials := Buffer_toString bytes in
  let user := substring credentials 0 (indexOf credentials (lit ":")) in
  ~ In colon user /\ isWellFormed user = true.
Proof.
  cbv zeta. pose proof (toString_wellformed bytes) as Hwf.
  destruct (in_dec Z.eq_dec colon (Buffer_toString bytes)) as [Hin|Hout].
  - destruct (first_occurrence colon _ Hin) as (u & p & Hdec & Hu).
    rewrite Hdec in *.
    destruct (credentials_with_colon u p Hu) as [-> _].
    split; [assumption|].
    now apply (proj1 (isWellFormed_before colon p u eq_refl)).
  - destruct (credentials_without_colon _ Hout) as [-> _].
    split; [intros [] | reflexivity].
Qed.

(** X17. When the expected username contains a colon (and is well-formed),
    no request authenticates: whatever the header, the answer is 401 or
    400 and no provider call is made. *)
Theorem colon_in_username_locks_out `{IpAddress} (cloudflare : Cloudflare)
    (request : Request) (env : Env) (w : World) :
  In colon (BASIC_USER env) ->
  isWellFormed (BASIC_USER env) = true ->
  exists r,
    fetch cloudflare request env w = (Returned r, w)
    /\ (status r = 401 \/ status r = 400).
Proof.
  intros Hcolon Hwf.
  assert (Hno : ~ authenticated request env).
  { intros (encoded & _ & Huser & _).
    destruct (decoded_user_plain (Buffer_from_base64 encoded))
      as [Hplain Huwf].
    cbv zeta in Hplain, Huwf. fold (decoded encoded) in Hplain, Huwf.
    apply encode_injective in Huser; try assumption.
    rewrite <- Huser in Hplain. contradiction. }
  destruct (fetch_handled cloudflare request env w); try contradiction;
    try match goal with
        | Hr : resolved _ _ _ _ _ _ _ _ |- _ =>
            destruct Hr as (Hauth & _); contradiction
        end;
    eexists; (split; [reflexivity|]); cbn; tauto.
Qed.

Lemma colon_in_username_locks_out_witness :
  exists r,
    fetch (Sample.account [])
      {| headers_Authorization :=
           Some (lit "Basic "
                 ++ Buffer_toString_base64
                      (TextEncoder_encode (lit "us:er:pass")));
         searchParams := [(lit "hostname", lit "home.example.com");
                          (lit "myip", lit "203.0.113.5")] |}
      {| CF_API_TOKEN := lit "token";
         BASIC_USER := lit "us:er";
         BASIC_PASS := lit "pass" |}
      World_empty
    = (Returned r, World_empty)
    /\ (status r = 401 \/ status r = 400).
Proof.
  apply (colon_in_username_locks_out (Sample.account [])).
  - right. right. now left.
  - reflexivity.
Defined.

(** X18. The credential string of line 62 is recovered from its encoding:
    for a well-formed string, decoding the base64 text of its UTF-8 bytes
    and reading the bytes as UTF-8 gives the string back. *)
Theorem credentials_round_trip (credentials : jsstring) :
  isWellFormed credentials = true ->
  Buffer_toString
    (Buffer_from_base64
       (Buffer_toString_base64 (TextEncoder_encode credentials)))
  = credentials.
Proof.
  intros Hwf. rewrite base64_roundtrip by now apply encode_bytes.
  now apply toString_encode.
Qed.

Lemma credentials_round_trip_witness :
  Buffer_toString
    (Buffer_from_base64
       (Buffer_toString_base64
          (TextEncoder_encode [0x75; 0xE9; 0x3A; 0xD83D; 0xDE00; 0x20AC])))
  = [0x75; 0xE9; 0x3A; 0xD83D; 0xDE00; 0x20AC].
Proof.
  apply (credentials_round_trip [0x75; 0xE9; 0x3A; 0xD83D; 0xDE00; 0x20AC]).
  reflexivity.
Defined.

(** X19. Once the records of the zone are listed, a write is always issued,
    whatever the records hold: the handler does not compare the address with
    the content of the record it found, and issues exactly one create or
    update after the two listings. *)
Theorem listing_always_followed_by_write `{IpAddress}
    (cloudflare : Cloudflare) (request : Request) (env : Env)
    (hostname myip : jsstring) (zones : list Zone) (zone : Zone)
    (records : list DnsRecord) (w : World) :
  authenticated request env ->
  validated request hostname myip ->
  zones_list cloudflare = Returned zones ->
  first_such (fun z => is_suffix (zone_name z) hostname) zones zone ->
  Address4_isValid myip = true \/ Address6_isValid myip = true ->
  dns_records_list cloudflare (zone_id zone) = Returned records ->
  exists write,
    is_write write = true
    /\ calls (snd (fetch cloudflare request env w))
       = calls w ++ [ZonesList; RecordsList (zone_id zone); write].
Proof.
  intros Hauth Hvalid Hzones Hfirst Hip Hlist.
  destruct (classify myip) as [[t c]|] eqn:Hclass.
  2:{ apply classify_none in Hclass as [H4 H6]. destruct Hip; congruence. }
  rewrite (fetch_upsert _ _ _ _ _ _ _ _ _ _ w
             Hauth Hvalid Hzones Hfirst Hclass Hlist). cbv zeta.
  destruct (find (fun r => JS.eqb (record_name r) hostname) records)
    as [record|] eqn:Hrecord.
  - destruct (falsy (record_id record)).
    + eexists (RecordsCreate _ _). split; [reflexivity|].
      destruct (dns_records_create _ _ _);
        cbn [snd calls logged reported]; now rewrite <- !app_assoc.
    + eexists (RecordsUpdate _ _ _). split; [reflexivity|].
      destruct (dns_records_update _ _ _ _);
        cbn [snd calls logged reported]; now rewrite <- !app_assoc.
  - cbn [falsy]. eexists (RecordsCreate _ _). split; [reflexivity|].
    destruct (dns_records_create _ _ _);
      cbn [snd calls logged reported]; now rewrite <- !app_assoc.
Qed.

Lemma listing_always_followed_by_write_witness :
  exists write,
    is_write write = true
    /\ calls (snd (fetch
                     (Sample.account
                        [{| record_id := Some (lit "rec1");
                            record_name := lit "home.example.com";
                            record_type := lit "A";
                            record_content := lit "203.0.113.5" |}])
                     (Sample.request "home.example.com" "203.0.113.5")
                     Sample.env World_empty))
       = calls World_empty
         ++ [ZonesList; RecordsList (zone_id Sample.example_com); write].
Proof.
  apply (listing_always_followed_by_write
           (Sample.account
              [{| record_id := Some (lit "rec1");
                  record_name := lit "home.example.com";
                  record_type := lit "A";
                  record_content := lit "203.0.113.5" |}])
           (Sample.request "home.example.com" "203.0.113.5") Sample.env
           (lit "home.example.com") (lit "203.0.113.5")
           [Sample.example_com; Sample.example_net] Sample.example_com
           [{| record_id := Some (lit "rec1");
               record_name := lit "home.example.com";
               record_type := lit "A";
               record_content := lit "203.0.113.5" |}]
           World_empty).
  - exists (lit "dXNlcjpwYXNz"). repeat split.
  - repeat split.
  - reflexivity.
  - apply zone_find_first_such. reflexivity.
  - now left.
  - reflexivity.
Defined.
